(** * A model of the pricedb.io and spells.pricedb.io TypeScript clients

    The two packages [@pricedb-io/client] ([PriceDBClient]) and
    [@pricedb-io/spells] ([SpellsClient]) are thin wrappers over [fetch].
    This development embeds
    - JavaScript strings as lists of UTF-16 code units,
    - the host primitives the clients rely on ([encodeURIComponent],
      [URLSearchParams], [JSON.stringify], [Number.prototype.toString],
      object spread) following their ECMAScript / WHATWG definitions,
    - the private [request] method as a computation in a state monad whose
      state holds the clock, the pending timers, the aborted signals, the
      client instance and a log of the effects performed,
    - every endpoint method of both classes on top of [request]. *)

From Stdlib Require Import ZArith List String Ascii Bool Lia.
Import ListNotations.
Local Set Warnings "-register-all".
Local Open Scope string_scope.
Local Open Scope list_scope.
Local Open Scope Z_scope.

(* ------------------------------------------------------------------ *)
(** ** JavaScript strings *)

(** A JavaScript string value: a sequence of UTF-16 code units. *)
Definition jstr := list Z.

(** A source literal (all literals of the clients are ASCII). *)
Definition lit (s : string) : jstr :=
  map (fun a => Z.of_nat (nat_of_ascii a)) (list_ascii_of_string s).

(** Every code unit of a JavaScript string lies in [0, 0xFFFF]. *)
Definition valid_jstr (s : jstr) : Prop := Forall (fun u => 0 <= u <= 65535) s.

Definition is_high_surrogate (u : Z) : bool := (55296 <=? u) && (u <=? 56319).
Definition is_low_surrogate (u : Z) : bool := (56320 <=? u) && (u <=? 57343).

(** UTF16SurrogatePairToCodePoint *)
Definition surrogate_pair_cp (hi lo : Z) : Z := 65536 + (hi - 55296) * 1024 + (lo - 56320).

(** UTF16EncodeCodePoint *)
Definition to_utf16 (cp : Z) : jstr :=
  if cp <? 65536 then [cp]
  else [55296 + (cp - 65536) / 1024; 56320 + (cp - 65536) mod 1024].

(** The UTF-8 octets of a code point. *)
Definition utf8_bytes (cp : Z) : list Z :=
  if cp <? 128 then [cp]
  else if cp <? 2048 then [192 + cp / 64; 128 + cp mod 64]
  else if cp <? 65536 then [224 + cp / 4096; 128 + (cp / 64) mod 64; 128 + cp mod 64]
  else [240 + cp / 262144; 128 + (cp / 4096) mod 64; 128 + (cp / 64) mod 64;
        128 + cp mod 64].

(** Upper-case hexadecimal digit, and the ["%XY"] escape of an octet. *)
Definition hex_digit (n : Z) : Z := if n <? 10 then 48 + n else 55 + n.
Definition pct_byte (b : Z) : jstr := [37; hex_digit (b / 16); hex_digit (b mod 16)].

(** ** Errors and exceptional results *)

Inductive js_error :=
| Error (message : jstr)   (* new Error(message) *)
| URIError                 (* thrown by encodeURIComponent *)
| TypeError                (* fetch: network failure *)
| SyntaxError              (* response.json(): body is not JSON *)
| AbortError.              (* fetch: the signal was aborted *)

Inductive except (A : Type) := Ok (a : A) | Exn (e : js_error).
Arguments Ok {A} a.
Arguments Exn {A} e.

Definition emap {A B} (f : A -> B) (x : except A) : except B :=
  match x with Ok a => Ok (f a) | Exn e => Exn e end.

(** ** [encodeURIComponent] (ECMA-262, 19.2.6.5 and the abstract Encode)

    The unescaped set is uriUnreserved: ASCII letters, digits and
    [- _ . ! ~ * ' ( )]. Every other code point is written as the
    percent escapes of its UTF-8 octets; a lone surrogate throws URIError. *)
Definition uri_unreserved (u : Z) : bool :=
  ((65 <=? u) && (u <=? 90)) || ((97 <=? u) && (u <=? 122))
  || ((48 <=? u) && (u <=? 57))
  || existsb (Z.eqb u) [45; 95; 46; 33; 126; 42; 39; 40; 41].

Definition pct_code_point (cp : Z) : jstr := flat_map pct_byte (utf8_bytes cp).

Fixpoint encodeURIComponent (s : jstr) : except jstr :=
  match s with
  | [] => Ok []
  | u :: rest =>
      if uri_unreserved u then emap (cons u) (encodeURIComponent rest)
      else if is_low_surrogate u then Exn URIError
      else if is_high_surrogate u then
        match rest with
        | lo :: rest' =>
            if is_low_surrogate lo
            then emap (app (pct_code_point (surrogate_pair_cp u lo)))
                      (encodeURIComponent rest')
            else Exn URIError
        | [] => Exn URIError
        end
      else emap (app (pct_code_point u)) (encodeURIComponent rest)
  end.

(** ** JavaScript numbers and [Number.prototype.toString()]

    A number as these clients receive one: an integral value, NaN, or an
    infinity ([-0] behaves as [0] in everything the clients do with it:
    it is falsy, [-0 || d] is [d], and it prints as ["0"]). Fractional
    numbers are not modelled. *)
Inductive number := Num (n : Z) | NaN | Infinity | NegInfinity.

(** [Number.isSafeInteger]: the integers a number holds exactly. *)
Definition safe_integer (n : Z) : Prop := - (2 ^ 53 - 1) <= n <= 2 ^ 53 - 1.

Fixpoint dec_digits (fuel : nat) (n : Z) (acc : jstr) : jstr :=
  match fuel with
  | O => acc
  | S f =>
      let acc' := (48 + n mod 10) :: acc in
      if n <? 10 then acc' else dec_digits f (n / 10) acc'
  end.

(** The decimal numeral of an integer: [Number::toString] of an integral
    number below [10^21] in magnitude whose shortest round-trip digits are
    its exact digits, which holds for every safe integer. *)
Definition number_toString (n : Z) : jstr :=
  if n <? 0 then 45 :: dec_digits (Pos.size_nat (Z.to_pos (- n))) (- n) []
  else dec_digits (S (Pos.size_nat (Z.to_pos n))) n [].

(** [Number::toString(x)] (also [`${x}`]). *)
Definition Number_toString (x : number) : jstr :=
  match x with
  | Num n => number_toString n
  | NaN => lit "NaN"
  | Infinity => lit "Infinity"
  | NegInfinity => lit "-Infinity"
  end.

(** ** [URLSearchParams] (WHATWG URL: application/x-www-form-urlencoded)

    Names and values are USVStrings: a lone surrogate becomes U+FFFD. *)
Fixpoint to_code_points (s : jstr) : list Z :=
  match s with
  | [] => []
  | u :: rest =>
      if is_high_surrogate u then
        match rest with
        | lo :: rest' =>
            if is_low_surrogate lo then surrogate_pair_cp u lo :: to_code_points rest'
            else 65533 :: to_code_points rest
        | [] => [65533]
        end
      else if is_low_surrogate u then 65533 :: to_code_points rest
      else u :: to_code_points rest
  end.

Definition form_byte (b : Z) : jstr :=
  if b =? 32 then [43]
  else if ((65 <=? b) && (b <=? 90)) || ((97 <=? b) && (b <=? 122))
          || ((48 <=? b) && (b <=? 57)) || existsb (Z.eqb b) [42; 45; 46; 95]
  then [b]
  else pct_byte b.

Definition form_urlencode (s : jstr) : jstr :=
  flat_map form_byte (flat_map utf8_bytes (to_code_points s)).

(** A URLSearchParams object: its list of name-value pairs. *)
Definition URLSearchParams := list (jstr * jstr).

Definition params_append (p : URLSearchParams) (name value : jstr) : URLSearchParams :=
  p ++ [(name, value)].

(** Array.prototype.join with a separator. *)
Fixpoint join_with (sep : jstr) (xs : list jstr) : jstr :=
  match xs with
  | [] => []
  | [x] => x
  | x :: rest => x ++ sep ++ join_with sep rest
  end.

Definition params_toString (p : URLSearchParams) : jstr :=
  join_with [38] (map (fun '(k, v) => form_urlencode k ++ [61] ++ form_urlencode v) p).

(** ** JSON values and [JSON.stringify]

    Numbers are the integral ones ([JSON.stringify] writes them with
    [Number.prototype.toString]); object members keep their order. *)
Inductive json :=
| JNull
| JBool (b : bool)
| JNum (n : Z)
| JStr (s : jstr)
| JArr (xs : list json)
| JObj (members : list (jstr * json)).

Definition lower_hex_digit (n : Z) : Z := if n <? 10 then 48 + n else 87 + n.

(** UnicodeEscape: [\uXXXX] with lower-case hexadecimal digits. *)
Definition unicode_escape (u : Z) : jstr :=
  [92; 117; lower_hex_digit (u / 4096); lower_hex_digit ((u / 256) mod 16);
   lower_hex_digit ((u / 16) mod 16); lower_hex_digit (u mod 16)].

(** The escape of a code unit that is not a surrogate. *)
Definition escape_unit (u : Z) : jstr :=
  if u =? 8 then [92; 98]
  else if u =? 9 then [92; 116]
  else if u =? 10 then [92; 110]
  else if u =? 12 then [92; 102]
  else if u =? 13 then [92; 114]
  else if u =? 34 then [92; 34]
  else if u =? 92 then [92; 92]
  else if u <? 32 then unicode_escape u
  else [u].

(** QuoteJSONString, without the enclosing quotes; lone surrogates are
    escaped, surrogate pairs are copied. *)
Fixpoint quote_units (s : jstr) : jstr :=
  match s with
  | [] => []
  | u :: rest =>
      if is_high_surrogate u then
        match rest with
        | lo :: rest' =>
            if is_low_surrogate lo then u :: lo :: quote_units rest'
            else unicode_escape u ++ quote_units rest
        | [] => unicode_escape u
        end
      else if is_low_surrogate u then unicode_escape u ++ quote_units rest
      else escape_unit u ++ quote_units rest
  end.

Definition QuoteJSONString (s : jstr) : jstr := [34] ++ quote_units s ++ [34].

Fixpoint JSON_stringify (j : json) : jstr :=
  match j with
  | JNull => lit "null"
  | JBool true => lit "true"
  | JBool false => lit "false"
  | JNum n => number_toString n
  | JStr s => QuoteJSONString s
  | JArr xs => [91] ++ join_with [44] (map JSON_stringify xs) ++ [93]
  | JObj ms =>
      [123] ++ join_with [44]
        (map (fun m => QuoteJSONString (fst m) ++ [58] ++ JSON_stringify (snd m)) ms)
      ++ [125]
  end.

(** ** Plain objects used as string maps ([Record<string, string>])

    Own properties in insertion order; assigning an existing key keeps its
    position and replaces its value. *)
Definition obj := list (jstr * jstr).

Definition jstr_eqb (a b : jstr) : bool :=
  if list_eq_dec Z.eq_dec a b then true else false.

Fixpoint obj_set (o : obj) (k v : jstr) : obj :=
  match o with
  | [] => [(k, v)]
  | (k', v') :: rest =>
      if jstr_eqb k k' then (k, v) :: rest else (k', v') :: obj_set rest k v
  end.

Fixpoint obj_get (o : obj) (k : jstr) : option jstr :=
  match o with
  | [] => None
  | (k', v) :: rest => if jstr_eqb k k' then Some v else obj_get rest k
  end.

(** [{...target, ...src}]: spreading [undefined] adds nothing. *)
Definition spread_into (target : obj) (src : option obj) : obj :=
  match src with
  | None => target
  | Some o => fold_left (fun acc kv => obj_set acc (fst kv) (snd kv)) o target
  end.

(** JavaScript truthiness of optional options ([undefined] is [None]). *)
Definition truthy_number (x : number) : bool :=
  match x with Num n => negb (n =? 0) | NaN => false | Infinity | NegInfinity => true end.
Definition truthy_num (o : option number) : bool :=
  match o with Some x => truthy_number x | None => false end.
Definition truthy_str (o : option jstr) : bool :=
  match o with Some (_ :: _) => true | _ => false end.

(** [o || d] *)
Definition or_num (o : option number) (d : number) : number :=
  match o with Some x => if truthy_number x then x else d | None => d end.
Definition or_str (o : option jstr) (d : jstr) : jstr :=
  match o with Some ((_ :: _) as s) => s | _ => d end.

(* ------------------------------------------------------------------ *)
(** ** The path a request URL reaches (WHATWG URL parser)

    [fetch(url)] parses [url] with the URL parser, and the request goes to
    the path it yields. This is the parser on inputs with the scheme
    [https] (a special scheme): the input is converted to a USVString,
    leading and trailing C0 controls and spaces are removed, then every
    ASCII tab and newline; after [https:] the slashes and backslashes are
    skipped; the authority runs up to the first [/], [\], [?] or [#] (an
    empty one is a failure; the host is not validated here); the path
    start state consumes one [/] or [\]; and the path state splits the rest
    into segments up to [?] or [#], resolving dot segments. Other inputs
    give [None]. *)














(* ------------------------------------------------------------------ *)
(** ** Client configuration and instance fields *)

(** [PriceDBClientConfig] / [SpellsClientConfig]: [undefined] is [None]. *)
Record ClientConfig := mk_config {
  cfg_baseUrl : option jstr;
  cfg_timeout : option number;
  cfg_headers : option obj
}.

(** [new PriceDBClient()] / [new SpellsClient()] use [config = {}]. *)
Definition empty_config : ClientConfig := mk_config None None None.

(** The private fields of an instance of either class. *)
Record Client := mk_client {
  baseUrl : jstr;
  timeout : number;
  headers : obj
}.

Definition content_type_default : obj := [(lit "Content-Type", lit "application/json")].

(** The constructor body shared by both classes, with the class's default
    base URL. *)
Definition construct (default_base : jstr) (config : ClientConfig) : Client :=
  {| baseUrl := or_str (cfg_baseUrl config) default_base;
     timeout := or_num (cfg_timeout config) (Num 10000);
     headers := spread_into content_type_default (cfg_headers config) |}.

Definition new_PriceDBClient (config : ClientConfig) : Client :=
  construct (lit "https://pricedb.io") config.

Definition new_SpellsClient (config : ClientConfig) : Client :=
  construct (lit "https://spell.pricedb.io") config.

(* ------------------------------------------------------------------ *)
(** ** The host: clock, timers, abort signals and fetch

    [setTimeout(cb, d)] schedules [cb] after [timer_delay d] ms (Node.js:
    a delay that is not in [1, 2147483647], NaN and the infinities
    included, becomes 1). The only callbacks the
    clients schedule are [() => controller.abort()], so a timer records the
    controller it aborts. *)
Definition timer_delay (d : number) : Z :=
  match d with
  | Num n => if (1 <=? n) && (n <=? 2147483647) then n else 1
  | _ => 1
  end.

Record timer := mk_timer {
  timer_id : nat;
  timer_due : Z;
  timer_aborts : nat
}.

(** The [RequestInit] handed to [fetch]; [init_signal] is [controller.signal]. *)
Record fetch_init := mk_init {
  init_method : option jstr;
  init_body : option jstr;
  init_headers : obj;
  init_signal : nat
}.

Inductive effect :=
| SetTimeout (id : nat) (delay : number)
| Fetch (url : jstr) (init : fetch_init)
| TimerFired (id : nat)
| Abort (controller : nat)
| ClearTimeout (id : nat).

Record response := mk_response {
  status : Z;
  body : option json   (* the body parsed as JSON; [None] when it is not JSON *)
}.

(** [Response.prototype.ok]: the status is in the range 200-299. *)
Definition ok (r : response) : bool := (200 <=? status r) && (status r <=? 299).

(** What the server does with a request, [after] ms after it was sent. *)
Inductive reply :=
| NoReply
| NetworkFailure (after : Z)
| Reply (after : Z) (r : response).

Definition server := jstr -> fetch_init -> reply.

Record rt := mk_rt {
  now : Z;
  self : Client;
  next_id : nat;
  timers : list timer;
  aborted : list nat;
  log : list effect
}.

(** Outcome of an awaited computation: a value, a thrown error, or a
    promise that never settles. *)
Inductive res (A : Type) := Ret (a : A) | Throw (e : js_error) | Hang.
Arguments Ret {A} a.
Arguments Throw {A} e.
Arguments Hang {A}.

Definition M (A : Type) := server -> rt -> res A * rt.

Definition ret {A} (a : A) : M A := fun _ s => (Ret a, s).
Definition throw {A} (e : js_error) : M A := fun _ s => (Throw e, s).

Definition bind {A B} (m : M A) (k : A -> M B) : M B :=
  fun w s =>
    match m w s with
    | (Ret a, s') => k a w s'
    | (Throw e, s') => (Throw e, s')
    | (Hang, s') => (Hang, s')
    end.

Notation "x <- m ;; k" := (bind m (fun x => k))
  (at level 61, m at next level, right associativity).

Definition lift {A} (x : except A) : M A :=
  match x with Ok a => ret a | Exn e => throw e end.

Definition get_self : M Client := fun _ s => (Ret (self s), s).

(** [try { m } finally { fin }] *)
Definition try_finally {A} (m : M A) (fin : M unit) : M A :=
  fun w s =>
    match m w s with
    | (Hang, s') => (Hang, s')
    | (r, s') =>
        match fin w s' with
        | (Ret _, s'') => (r, s'')
        | (Throw e, s'') => (Throw e, s'')
        | (Hang, s'') => (Hang, s'')
        end
    end.

(** [new AbortController()] *)
Definition new_AbortController : M nat :=
  fun _ s =>
    (Ret (next_id s),
     mk_rt (now s) (self s) (S (next_id s)) (timers s) (aborted s) (log s)).

(** [setTimeout(() => controller.abort(), delay)] *)
Definition setTimeout_abort (controller : nat) (delay : number) : M nat :=
  fun _ s =>
    let id := next_id s in
    (Ret id,
     mk_rt (now s) (self s) (S id)
       (timers s ++ [mk_timer id (now s + timer_delay delay) controller])
       (aborted s) (log s ++ [SetTimeout id delay])).

(** [clearTimeout(id)]: a no-op on a timer that already fired. *)
Definition clearTimeout (id : nat) : M unit :=
  fun _ s =>
    (Ret tt,
     mk_rt (now s) (self s) (next_id s)
       (filter (fun t => negb (Nat.eqb (timer_id t) id)) (timers s))
       (aborted s) (log s ++ [ClearTimeout id])).

(** The pending timer that aborts [controller] and is due first. *)
Fixpoint first_due (controller : nat) (ts : list timer) : option timer :=
  match ts with
  | [] => None
  | t :: rest =>
      let r := first_due controller rest in
      if Nat.eqb (timer_aborts t) controller then
        match r with
        | Some t' => if timer_due t' <? timer_due t then Some t' else Some t
        | None => Some t
        end
      else r
  end.

(** [await fetch(url, init)]. The request is logged; the promise settles
    with the server's reply, or rejects with AbortError when the timer that
    aborts [init_signal] fires first (on a tie the timer runs first).
    Timers aborting other signals do not affect this fetch. The server [w]
    is given the URL string passed to [fetch]; the path the request reaches
    is [url_path url], where dot segments are already resolved. *)
Definition fetch_ (url : jstr) (init : fetch_init) : M response :=
  fun w s =>
    let controller := init_signal init in
    let lg := log s ++ [Fetch url init] in
    let settle (a : Z) (r : res response) :=
      (r, mk_rt a (self s) (next_id s) (timers s) (aborted s) lg) in
    let fire (t : timer) :=
      (Throw AbortError,
       mk_rt (Z.max (now s) (timer_due t)) (self s) (next_id s)
         (filter (fun t' => negb (Nat.eqb (timer_id t') (timer_id t))) (timers s))
         (controller :: aborted s) (lg ++ [TimerFired (timer_id t); Abort controller])) in
    if existsb (Nat.eqb controller) (aborted s) then
      (Throw AbortError, mk_rt (now s) (self s) (next_id s) (timers s) (aborted s) lg)
    else
      let outcome :=
        match w url init with
        | NoReply => None
        | NetworkFailure a => Some (now s + Z.max 0 a, Throw TypeError)
        | Reply a r => Some (now s + Z.max 0 a, Ret r)
        end in
      match first_due controller (timers s), outcome with
      | Some t, Some (a, r) => if a <? timer_due t then settle a r else fire t
      | Some t, None => fire t
      | None, Some (a, r) => settle a r
      | None, None => (Hang, mk_rt (now s) (self s) (next_id s) (timers s) (aborted s) lg)
      end.

(** [await response.json()] *)
Definition response_json (r : response) : M json :=
  match body r with Some j => ret j | None => throw SyntaxError end.

(** The [RequestInit] an endpoint method passes to [request]. *)
Record RequestInit := mk_request_init {
  ri_method : option jstr;
  ri_body : option jstr;
  ri_headers : option obj
}.

Definition no_init : RequestInit := mk_request_init None None None.

Definition http_error_message (st : Z) : jstr :=
  lit "HTTP error! status: " ++ number_toString st.

(** The private [request<T>(endpoint, options)] of both classes (the two
    bodies are identical). *)
Definition request (endpoint : jstr) (options : RequestInit) : M json :=
  c <- get_self ;;
  controller <- new_AbortController ;;
  timeoutId <- setTimeout_abort controller (timeout c) ;;
  try_finally
    (response <- fetch_ (baseUrl c ++ endpoint)
                   {| init_method := ri_method options;
                      init_body := ri_body options;
                      init_headers :=
                        spread_into (spread_into [] (Some (headers c))) (ri_headers options);
                      init_signal := controller |} ;;
     if negb (ok response)
     then throw (Error (http_error_message (status response)))
     else response_json response)
    (clearTimeout timeoutId).

(** [if (o) params.append(name, o.toString())] for a numeric option. *)
Definition append_num_if (params : URLSearchParams) (name : jstr) (o : option number)
  : URLSearchParams :=
  if truthy_num o then
    match o with
    | Some n => params_append params name (Number_toString n)
    | None => params
    end
  else params.

(** [queryString ? a : b] *)
Definition if_query (queryString : jstr) (a b : jstr) : jstr :=
  match queryString with [] => b | _ => a end.

(* ------------------------------------------------------------------ *)
(** ** [PriceDBClient] (packages/pricedb-client/src/client.ts) *)
Module PriceDBClient.

Record PaginationOptions := mk_pagination { limit : option number; offset : option number }.
Record HistoryOptions := mk_history { start : option number; end_ : option number }.
Record SearchOptions := mk_search { query : jstr; search_limit : option number }.
Record GraphOptions :=
  mk_graph { header : option bool; height : option number; width : option jstr }.

Definition health : M json := request (lit "/api/") no_init.
Definition getItems : M json := request (lit "/api/items") no_init.
Definition getLatestPrices : M json := request (lit "/api/latest-prices") no_init.

Definition getPrices_endpoint (options : PaginationOptions) : jstr :=
  let params := append_num_if [] (lit "limit") (limit options) in
  let params := append_num_if params (lit "offset") (offset options) in
  let queryString := params_toString params in
  if_query queryString (lit "/api/prices?" ++ queryString) (lit "/api/prices").

Definition getPrices (options : PaginationOptions) : M json :=
  request (getPrices_endpoint options) no_init.

Definition getItem_endpoint (sku : jstr) : except jstr :=
  emap (fun e => lit "/api/item/" ++ e) (encodeURIComponent sku).

Definition getItem (sku : jstr) : M json :=
  endpoint <- lift (getItem_endpoint sku) ;; request endpoint no_init.

Definition getItemHistory_endpoint (sku : jstr) (options : HistoryOptions) : except jstr :=
  let params := append_num_if [] (lit "start") (start options) in
  let params := append_num_if params (lit "end") (end_ options) in
  let queryString := params_toString params in
  emap (fun e => if_query queryString
                   (lit "/api/item-history/" ++ e ++ lit "?" ++ queryString)
                   (lit "/api/item-history/" ++ e))
       (encodeURIComponent sku).

Definition getItemHistory (sku : jstr) (options : HistoryOptions) : M json :=
  endpoint <- lift (getItemHistory_endpoint sku options) ;; request endpoint no_init.

Definition getItemStats_endpoint (sku : jstr) : except jstr :=
  emap (fun e => lit "/api/item-stats/" ++ e) (encodeURIComponent sku).

Definition getItemStats (sku : jstr) : M json :=
  endpoint <- lift (getItemStats_endpoint sku) ;; request endpoint no_init.

Definition getItemsBulk_init (skus : list jstr) : RequestInit :=
  mk_request_init (Some (lit "POST"))
    (Some (JSON_stringify (JObj [(lit "skus", JArr (map JStr skus))]))) None.

Definition getItemsBulk (skus : list jstr) : M json :=
  request (lit "/api/items-bulk") (getItemsBulk_init skus).

Definition getSnapshot (timestamp : number) : M json :=
  request (lit "/api/snapshot/" ++ Number_toString timestamp) no_init.

Definition search_endpoint (options : SearchOptions) : jstr :=
  let params := params_append [] (lit "q") (query options) in
  let params := append_num_if params (lit "limit") (search_limit options) in
  lit "/api/search?" ++ params_toString params.

Definition search (options : SearchOptions) : M json :=
  request (search_endpoint options) no_init.

Definition compareItems_endpoint (sku1 sku2 : jstr) : except jstr :=
  match encodeURIComponent sku1 with
  | Ok e1 => emap (fun e2 => lit "/api/compare/" ++ e1 ++ lit "/" ++ e2)
                  (encodeURIComponent sku2)
  | Exn err => Exn err
  end.

Definition compareItems (sku1 sku2 : jstr) : M json :=
  endpoint <- lift (compareItems_endpoint sku1 sku2) ;; request endpoint no_init.

Definition getCacheStats : M json := request (lit "/api/cache-stats") no_init.

Definition graph_url (base sku : jstr) (options : GraphOptions) : except jstr :=
  let params : URLSearchParams := [] in
  let params :=
    match header options with
    | Some false => params_append params (lit "header") (lit "false")
    | _ => params
    end in
  let params := append_num_if params (lit "height") (height options) in
  let params :=
    if truthy_str (width options) then
      match width options with Some w => params_append params (lit "width") w | None => params end
    else params in
  let queryString := params_toString params in
  emap (fun e => if_query queryString
                   (base ++ lit "/api/graph/" ++ e ++ lit "?" ++ queryString)
                   (base ++ lit "/api/graph/" ++ e))
       (encodeURIComponent sku).

(** [getGraphUrl] is synchronous; it reads [this.baseUrl] only. *)
Definition getGraphUrl (sku : jstr) (options : GraphOptions) : M jstr :=
  c <- get_self ;; lift (graph_url (baseUrl c) sku options).

(** The endpoint methods, as calls with their arguments. *)
Inductive Call :=
| Health
| GetItems
| GetLatestPrices
| GetPrices (options : PaginationOptions)
| GetItem (sku : jstr)
| GetItemHistory (sku : jstr) (options : HistoryOptions)
| GetItemStats (sku : jstr)
| GetItemsBulk (skus : list jstr)
| GetSnapshot (timestamp : number)
| Search (options : SearchOptions)
| CompareItems (sku1 sku2 : jstr)
| GetCacheStats.

Definition run (call : Call) : M json :=
  match call with
  | Health => health
  | GetItems => getItems
  | GetLatestPrices => getLatestPrices
  | GetPrices o => getPrices o
  | GetItem sku => getItem sku
  | GetItemHistory sku o => getItemHistory sku o
  | GetItemStats sku => getItemStats sku
  | GetItemsBulk skus => getItemsBulk skus
  | GetSnapshot t => getSnapshot t
  | Search o => search o
  | CompareItems s1 s2 => compareItems s1 s2
  | GetCacheStats => getCacheStats
  end.

(** The arguments a call passes to [request], or the error it throws
    before reaching it. *)
Definition request_of (call : Call) : except (jstr * RequestInit) :=
  match call with
  | Health => Ok (lit "/api/", no_init)
  | GetItems => Ok (lit "/api/items", no_init)
  | GetLatestPrices => Ok (lit "/api/latest-prices", no_init)
  | GetPrices o => Ok (getPrices_endpoint o, no_init)
  | GetItem sku => emap (fun e => (e, no_init)) (getItem_endpoint sku)
  | GetItemHistory sku o => emap (fun e => (e, no_init)) (getItemHistory_endpoint sku o)
  | GetItemStats sku => emap (fun e => (e, no_init)) (getItemStats_endpoint sku)
  | GetItemsBulk skus => Ok (lit "/api/items-bulk", getItemsBulk_init skus)
  | GetSnapshot t => Ok (lit "/api/snapshot/" ++ Number_toString t, no_init)
  | Search o => Ok (search_endpoint o, no_init)
  | CompareItems s1 s2 => emap (fun e => (e, no_init)) (compareItems_endpoint s1 s2)
  | GetCacheStats => Ok (lit "/api/cache-stats", no_init)
  end.

End PriceDBClient.

(* ------------------------------------------------------------------ *)
(** ** [SpellsClient] (packages/spells-client/src/client.ts) *)
Module SpellsClient.

Record PredictOptions := mk_predict { spells : jstr; item : jstr }.
(** The [options] object passed to [predictSpellItem]: its own enumerable
    properties in property order, each with a value that is JSON data. The
    TypeScript type asks for [item_name] and [spell_ids];
    [JSON.stringify(options)] sends whatever properties the object has, in
    its order. *)
Definition PredictSpellItemOptions := list (jstr * json).
Record PremiumOptions := mk_premium { premium_item : jstr; premium_ids : jstr }.

Definition predict_endpoint (options : PredictOptions) : jstr :=
  let params : URLSearchParams := [(lit "spells", spells options); (lit "item", item options)] in
  lit "/api/spell/predict?" ++ params_toString params.

Definition predict (options : PredictOptions) : M json :=
  request (predict_endpoint options) no_init.

(** [{ method: 'POST', body: JSON.stringify(options) }] *)
Definition predictSpellItem_init (options : PredictSpellItemOptions) : RequestInit :=
  mk_request_init (Some (lit "POST")) (Some (JSON_stringify (JObj options))) None.

Definition predictSpellItem (options : PredictSpellItemOptions) : M json :=
  request (lit "/api/spell/predict-spell-item") (predictSpellItem_init options).

Definition getSpellValue_endpoint (ids : jstr) : jstr :=
  lit "/api/spell/spell-value?" ++ params_toString [(lit "ids", ids)].

Definition getSpellValue (ids : jstr) : M json :=
  request (getSpellValue_endpoint ids) no_init.

Definition getSpellAnalytics : M json := request (lit "/api/spell/spell-analytics") no_init.

Definition getItemSpellPremium_endpoint (options : PremiumOptions) : jstr :=
  lit "/api/spell/item-spell-premium?"
    ++ params_toString [(lit "item", premium_item options); (lit "ids", premium_ids options)].

Definition getItemSpellPremium (options : PremiumOptions) : M json :=
  request (getItemSpellPremium_endpoint options) no_init.

Definition spellIdToName_endpoint (id : number) : jstr :=
  lit "/api/spell/spell-id-to-name?" ++ params_toString [(lit "id", Number_toString id)].

Definition spellIdToName (id : number) : M json :=
  request (spellIdToName_endpoint id) no_init.

Definition spellNameToId_endpoint (name : jstr) : jstr :=
  lit "/api/spell/spell-name-to-id?" ++ params_toString [(lit "name", name)].

Definition spellNameToId (name : jstr) : M json :=
  request (spellNameToId_endpoint name) no_init.

Definition getSpells : M json := request (lit "/api/spell/spells") no_init.
Definition getFetcherStatus : M json := request (lit "/api/spell/fetcher-status") no_init.
Definition health : M json := request (lit "/api/spell/health") no_init.
Definition getStats : M json := request (lit "/api/stats") no_init.
Definition getStatusProxy : M json := request (lit "/api/spell/status-proxy") no_init.

Inductive Call :=
| Predict (options : PredictOptions)
| PredictSpellItem (options : PredictSpellItemOptions)
| GetSpellValue (ids : jstr)
| GetSpellAnalytics
| GetItemSpellPremium (options : PremiumOptions)
| SpellIdToName (id : number)
| SpellNameToId (name : jstr)
| GetSpells
| GetFetcherStatus
| Health
| GetStats
| GetStatusProxy.

Definition run (call : Call) : M json :=
  match call with
  | Predict o => predict o
  | PredictSpellItem o => predictSpellItem o
  | GetSpellValue ids => getSpellValue ids
  | GetSpellAnalytics => getSpellAnalytics
  | GetItemSpellPremium o => getItemSpellPremium o
  | SpellIdToName id => spellIdToName id
  | SpellNameToId name => spellNameToId name
  | GetSpells => getSpells
  | GetFetcherStatus => getFetcherStatus
  | Health => health
  | GetStats => getStats
  | GetStatusProxy => getStatusProxy
  end.

(** No method of this class throws before calling [request]. *)
Definition request_of (call : Call) : jstr * RequestInit :=
  match call with
  | Predict o => (predict_endpoint o, no_init)
  | PredictSpellItem o => (lit "/api/spell/predict-spell-item", predictSpellItem_init o)
  | GetSpellValue ids => (getSpellValue_endpoint ids, no_init)
  | GetSpellAnalytics => (lit "/api/spell/spell-analytics", no_init)
  | GetItemSpellPremium o => (getItemSpellPremium_endpoint o, no_init)
  | SpellIdToName id => (spellIdToName_endpoint id, no_init)
  | SpellNameToId name => (spellNameToId_endpoint name, no_init)
  | GetSpells => (lit "/api/spell/spells", no_init)
  | GetFetcherStatus => (lit "/api/spell/fetcher-status", no_init)
  | Health => (lit "/api/spell/health", no_init)
  | GetStats => (lit "/api/stats", no_init)
  | GetStatusProxy => (lit "/api/spell/status-proxy", no_init)
  end.

End SpellsClient.

(** A caller awaiting a sequence of calls and catching their errors
    ([try { await client.m() } catch {}]); a call that never settles blocks
    the rest. *)
Definition catch_all {A} (m : M A) : M unit :=
  fun w s =>
    match m w s with
    | (Hang, s') => (Hang, s')
    | (_, s') => (Ret tt, s')
    end.

Fixpoint run_calls (calls : list PriceDBClient.Call) : M unit :=
  match calls with
  | [] => ret tt
  | c :: rest => _ <- catch_all (PriceDBClient.run c) ;; run_calls rest
  end.

(** The state of a fresh program: clock at 0, nothing scheduled. *)
Definition initial_rt (c : Client) : rt := mk_rt 0 c 0 [] [] [].


(** The effects requested by the second-call frame lemma: the arguments a
    call hands to [fetch] on an instance. *)
Definition fetch_args (c : Client) (endpoint : jstr) (options : RequestInit)
  : jstr * option jstr * option jstr * obj :=
  (baseUrl c ++ endpoint, ri_method options, ri_body options,
   spread_into (spread_into [] (Some (headers c))) (ri_headers options)).

Definition PriceDBClient_issued (c : Client) (call : PriceDBClient.Call)
  : except (jstr * option jstr * option jstr * obj) :=
  emap (fun eo => fetch_args c (fst eo) (snd eo)) (PriceDBClient.request_of call).

Definition SpellsClient_issued (c : Client) (call : SpellsClient.Call)
  : jstr * option jstr * option jstr * obj :=
  fetch_args c (fst (SpellsClient.request_of call)) (snd (SpellsClient.request_of call)).

(** A state where the next allocated abort controller is not already
    aborted and no pending timer targets it. *)
Definition fresh_signal (s : rt) : Prop :=
  Forall (fun t => timer_aborts t <> next_id s) (timers s) /\ ~ In (next_id s) (aborted s).

(* ------------------------------------------------------------------ *)
(** * Proofs *)

Ltac unfold_monad :=
  unfold bind, ret, throw, lift, get_self, try_finally, new_AbortController,
    setTimeout_abort, clearTimeout, fetch_, response_json in *.

(** Case on the innermost scrutinees first. *)
Ltac split_matches :=
  repeat (match goal with
          | |- context [match ?x with _ => _ end] =>
              lazymatch x with
              | context [match _ with _ => _ end] => fail
              | _ => destruct x eqn:?
              end
          end; cbn in *).

(** ** The transport core *)

Lemma first_due_none_not_target : forall c ts,
  first_due c ts = None -> Forall (fun t => timer_aborts t <> c) ts.
Proof.
  induction ts as [| t ts IH]; simpl; intros H; constructor.
  - destruct (Nat.eqb_spec (timer_aborts t) c); [| assumption].
    destruct (first_due c ts) as [t'|]; [destruct (timer_due t' <? timer_due t)|]; discriminate.
  - destruct (Nat.eqb (timer_aborts t) c); [| auto].
    destruct (first_due c ts) as [t'|]; [destruct (timer_due t' <? timer_due t)|]; discriminate.
Qed.

(** A timer that targets [c] bounds the due time of the first one. *)
Lemma first_due_bound : forall c ts t,
  In t ts -> timer_aborts t = c ->
  exists t', first_due c ts = Some t' /\ timer_due t' <= timer_due t.
Proof.
  induction ts as [| t0 ts IH]; simpl; intros t Hin Hc; [contradiction|].
  destruct Hin as [Heq | Hin].
  - subst t0. rewrite Hc, Nat.eqb_refl.
    destruct (first_due c ts) as [t'|].
    + destruct (Z.ltb_spec (timer_due t') (timer_due t)); eexists; split; eauto; lia.
    + eexists; split; eauto; lia.
  - destruct (IH t Hin Hc) as (t' & Ht' & Hle). rewrite Ht'.
    destruct (Nat.eqb (timer_aborts t0) c).
    + destruct (Z.ltb_spec (timer_due t') (timer_due t0)); eexists; split; eauto; lia.
    + eexists; split; eauto.
Qed.

Lemma first_due_fresh : forall c ts t,
  Forall (fun t => timer_aborts t <> c) ts -> timer_aborts t = c ->
  first_due c (ts ++ [t]) = Some t.
Proof.
  induction ts as [| t0 ts IH]; simpl; intros t Hf Hc.
  - rewrite Hc, Nat.eqb_refl. reflexivity.
  - inversion Hf as [| ? ? Hne Hf']. rewrite IH by auto.
    destruct (Nat.eqb_spec (timer_aborts t0) c); [contradiction | reflexivity].
Qed.

(** [request] keeps the instance and only appends to the log; every fetch it
    logs carries the endpoint, method, body and headers given by the
    instance's configuration and its own arguments. *)
Lemma request_frame : forall endpoint options w s,
  let s' := snd (request endpoint options w s) in
  self s' = self s /\
  exists new, log s' = log s ++ new /\
    (forall u i, In (Fetch u i) new ->
       fetch_args (self s) endpoint options
       = (u, init_method i, init_body i, init_headers i)).
Proof.
  intros endpoint options w s. unfold request. unfold_monad. cbn.
  split_matches; (split; [reflexivity|]);
    (eexists; split; [repeat rewrite <- app_assoc; reflexivity|]);
    intros u i Hin; simpl in Hin;
    repeat (destruct Hin as [Hin | Hin]; [inversion Hin; subst; reflexivity |]);
    contradiction.
Qed.

(** ** Endpoint methods reduce to [request] *)

Lemma PriceDBClient_run_request : forall call w s,
  PriceDBClient.run call w s =
  match PriceDBClient.request_of call with
  | Ok eo => request (fst eo) (snd eo) w s
  | Exn e => (Throw e, s)
  end.
Proof.
  intros [| | | o | sku | sku o | sku | skus | t | o | sku1 sku2 |] w s;
    try reflexivity; cbn;
    unfold PriceDBClient.getItem, PriceDBClient.getItemHistory,
      PriceDBClient.getItemStats, PriceDBClient.compareItems, bind, lift, ret, throw.
  - destruct (PriceDBClient.getItem_endpoint sku); reflexivity.
  - destruct (PriceDBClient.getItemHistory_endpoint sku o); reflexivity.
  - destruct (PriceDBClient.getItemStats_endpoint sku); reflexivity.
  - destruct (PriceDBClient.compareItems_endpoint sku1 sku2); reflexivity.
Qed.

(** Only an identifier that [encodeURIComponent] rejects stops a call
    before [request]. *)
Lemma encodeURIComponent_error : forall s e, encodeURIComponent s = Exn e -> e = URIError.
Proof.
  fix IH 1. intros [| u rest] e H; cbn in H; [discriminate|].
  destruct (uri_unreserved u).
  - destruct (encodeURIComponent rest) eqn:E; cbn in H; [discriminate|].
    inversion H; subst; eapply IH; eauto.
  - destruct (is_low_surrogate u); [congruence|].
    destruct (is_high_surrogate u).
    + destruct rest as [| lo rest']; [congruence|].
      destruct (is_low_surrogate lo); [|congruence].
      destruct (encodeURIComponent rest') eqn:E; cbn in H; [discriminate|].
      inversion H; subst; eapply IH; eauto.
    + destruct (encodeURIComponent rest) eqn:E; cbn in H; [discriminate|].
      inversion H; subst; eapply IH; eauto.
Qed.

(** Only an identifier that [encodeURIComponent] rejects stops a call
    before [request]. *)
Lemma PriceDBClient_request_of_error : forall call e,
  PriceDBClient.request_of call = Exn e -> e = URIError.
Proof.
  intros [| | | o | sku | sku o | sku | skus | t | o | sku1 sku2 |] e H;
    cbn in H; try discriminate;
    unfold PriceDBClient.getItem_endpoint, PriceDBClient.getItemHistory_endpoint,
      PriceDBClient.getItemStats_endpoint, PriceDBClient.compareItems_endpoint in H.
  - destruct (encodeURIComponent sku) eqn:E; cbn in H; [discriminate|].
    inversion H; subst; eauto using encodeURIComponent_error.
  - destruct (encodeURIComponent sku) eqn:E; cbn in H; [discriminate|].
    inversion H; subst; eauto using encodeURIComponent_error.
  - destruct (encodeURIComponent sku) eqn:E; cbn in H; [discriminate|].
    inversion H; subst; eauto using encodeURIComponent_error.
  - destruct (encodeURIComponent sku1) eqn:E1.
    + destruct (encodeURIComponent sku2) eqn:E2; cbn in H; [discriminate|].
      inversion H; subst; eauto using encodeURIComponent_error.
    + cbn in H. inversion H; subst; eauto using encodeURIComponent_error.
Qed.

Lemma SpellsClient_run_request : forall call w s,
  SpellsClient.run call w s =
  request (fst (SpellsClient.request_of call)) (snd (SpellsClient.request_of call)) w s.
Proof. intros []; reflexivity. Qed.

Lemma PriceDBClient_run_frame : forall call w s,
  let s' := snd (PriceDBClient.run call w s) in
  self s' = self s /\
  exists new, log s' = log s ++ new /\
    (forall u i, In (Fetch u i) new ->
       PriceDBClient_issued (self s) call = Ok (u, init_method i, init_body i, init_headers i)).
Proof.
  intros call w s. cbn zeta. rewrite PriceDBClient_run_request.
  unfold PriceDBClient_issued.
  destruct (PriceDBClient.request_of call) as [[endpoint options] | e]; cbn.
  - destruct (request_frame endpoint options w s) as (Hself & new & Hlog & Hf).
    split; [exact Hself|]. exists new. split; [exact Hlog|].
    intros u i Hin. rewrite (Hf u i Hin). reflexivity.
  - split; [reflexivity|]. exists []. split; [symmetry; apply app_nil_r|].
    intros u i [].
Qed.

Lemma SpellsClient_run_frame : forall call w s,
  let s' := snd (SpellsClient.run call w s) in
  self s' = self s /\
  exists new, log s' = log s ++ new /\
    (forall u i, In (Fetch u i) new ->
       SpellsClient_issued (self s) call = (u, init_method i, init_body i, init_headers i)).
Proof.
  intros call w s. cbn zeta. rewrite SpellsClient_run_request.
  unfold SpellsClient_issued. apply request_frame.
Qed.

(** C5 *)
(** Claim C5: no endpoint method of either class changes the instance
    fields ([baseUrl], [timeout], [headers]); after a first call, every
    request a second call sends (URL, method, body, headers) is determined
    by the second call's own arguments and the construction-time fields. *)
Theorem calls_do_not_share_state :
  (forall (call1 call2 : PriceDBClient.Call) w s,
     let s1 := snd (PriceDBClient.run call1 w s) in
     let s2 := snd (PriceDBClient.run call2 w s1) in
     self s1 = self s /\ self s2 = self s /\
     exists new, log s2 = log s1 ++ new /\
       (forall u i, In (Fetch u i) new ->
          PriceDBClient_issued (self s) call2
          = Ok (u, init_method i, init_body i, init_headers i))) /\
  (forall (call1 call2 : SpellsClient.Call) w s,
     let s1 := snd (SpellsClient.run call1 w s) in
     let s2 := snd (SpellsClient.run call2 w s1) in
     self s1 = self s /\ self s2 = self s /\
     exists new, log s2 = log s1 ++ new /\
       (forall u i, In (Fetch u i) new ->
          SpellsClient_issued (self s) call2
          = (u, init_method i, init_body i, init_headers i))).
Proof.
  split; intros call1 call2 w s; cbn zeta.
  - destruct (PriceDBClient_run_frame call1 w s) as [H1 _].
    destruct (PriceDBClient_run_frame call2 w (snd (PriceDBClient.run call1 w s)))
      as (H2 & new & Hlog & Hf).
    rewrite H1 in H2, Hf. split; [exact H1|]. split; [exact H2|]. eauto.
  - destruct (SpellsClient_run_frame call1 w s) as [H1 _].
    destruct (SpellsClient_run_frame call2 w (snd (SpellsClient.run call1 w s)))
      as (H2 & new & Hlog & Hf).
    rewrite H1 in H2, Hf. split; [exact H1|]. split; [exact H2|]. eauto.
Qed.

Lemma filter_removes_timer : forall id ts,
  ~ In id (map timer_id (filter (fun t => negb (Nat.eqb (timer_id t) id)) ts)).
Proof.
  induction ts as [| t ts IH]; cbn; [auto|].
  destruct (Nat.eqb_spec (timer_id t) id); cbn; [exact IH|].
  intros [H | H]; [congruence | contradiction].
Qed.

(** The timer [request] starts targets its own controller, so the fetch
    always has a deadline. *)
Lemma request_timer_due : forall s d,
  exists t, first_due (next_id s) (timers s ++ [mk_timer (S (next_id s)) d (next_id s)]) = Some t
            /\ timer_due t <= d.
Proof.
  intros s d.
  destruct (first_due_bound (next_id s) (timers s ++ [mk_timer (S (next_id s)) d (next_id s)])
              (mk_timer (S (next_id s)) d (next_id s))) as (t & Ht & Hle).
  - apply in_or_app. right. left. reflexivity.
  - reflexivity.
  - exists t. split; [exact Ht | exact Hle].
Qed.

Ltac no_missing_deadline :=
  match goal with
  | H : first_due (next_id ?s) (timers ?s ++ [mk_timer _ ?d _]) = None |- _ =>
      destruct (request_timer_due s d) as (? & Hd & _); rewrite Hd in H; discriminate
  end.

Ltac close_log :=
  eexists; split; [rewrite <- !app_assoc; reflexivity | reflexivity].

(** C6 *)
(** Claim C6: on every path of [request] (success, HTTP error status,
    invalid JSON, network failure, abort by the timer, or a signal found
    already aborted) the call settles, the timer it started first is no
    longer pending, and [clearTimeout] on it is the last effect logged
    before the result or the error reaches the caller. *)
Theorem request_always_clears_timer : forall endpoint options w s,
  let tid := S (next_id s) in
  let '(r, s') := request endpoint options w s in
  r <> Hang /\
  ~ In tid (map timer_id (timers s')) /\
  exists new, log s' = log s ++ SetTimeout tid (timeout (self s)) :: new /\
    last new (SetTimeout tid (timeout (self s))) = ClearTimeout tid.
Proof.
  intros endpoint options w s. cbn zeta. unfold request. unfold_monad. cbn.
  split_matches; try no_missing_deadline;
    (split; [discriminate|]); (split; [apply filter_removes_timer|]); close_log.
Qed.

Lemma existsb_fresh : forall x l, ~ In x l -> existsb (Nat.eqb x) l = false.
Proof.
  intros x l Hn. apply not_true_iff_false. intros H.
  apply existsb_exists in H as (y & Hy & Heq). apply Nat.eqb_eq in Heq. subst. auto.
Qed.

Lemma timer_delay_pos : forall d, 1 <= timer_delay d.
Proof.
  intros [d| | |]; unfold timer_delay; [| lia ..].
  destruct (Z.leb_spec 1 d); destruct (Z.leb_spec d 2147483647); cbn; lia.
Qed.

Lemma timer_delay_in_range : forall d, 1 <= d <= 2147483647 -> timer_delay (Num d) = d.
Proof.
  intros d Hd. unfold timer_delay.
  rewrite (proj2 (Z.leb_le 1 d)), (proj2 (Z.leb_le d 2147483647)) by lia. reflexivity.
Qed.

(** A reply that arrives before the deadline decides the result: an HTTP
    error for a status outside 200-299, the parsed body otherwise. *)
Lemma request_reply_before_deadline : forall endpoint options w s a r,
  fresh_signal s ->
  (forall u i, w u i = Reply a r) ->
  0 <= a < timer_delay (timeout (self s)) ->
  fst (request endpoint options w s) =
  if ok r then match body r with Some j => Ret j | None => Throw SyntaxError end
  else Throw (Error (http_error_message (status r))).
Proof.
  intros endpoint options w s a r [Ht Ha] Hw Hdl.
  unfold request. unfold_monad. cbn.
  rewrite existsb_fresh by exact Ha.
  rewrite first_due_fresh by (exact Ht || reflexivity). cbn.
  rewrite Hw.
  rewrite (proj2 (Z.ltb_lt _ _)) by lia.
  destruct (ok r); cbn; [destruct (body r)|]; reflexivity.
Qed.

(** Against a server that never answers, [request] rejects with AbortError
    once its timer fires, and not later than its deadline. *)
Lemma request_no_reply : forall endpoint options s,
  let '(r, s') := request endpoint options (fun _ _ => NoReply) s in
  r = Throw AbortError /\ now s <= now s' <= now s + timer_delay (timeout (self s)).
Proof.
  intros endpoint options s.
  destruct (request_timer_due s (now s + timer_delay (timeout (self s)))) as (t & Hd & Hle).
  pose proof (timer_delay_pos (timeout (self s))).
  unfold request. unfold_monad. cbn.
  destruct (existsb (Nat.eqb (next_id s)) (aborted s)); cbn.
  - split; [reflexivity | lia].
  - rewrite Hd. cbn. split; [reflexivity | lia].
Qed.

(** Deciding a decimal numeral, to read a status back from a message. *)
Definition decimal_value (digits : jstr) : Z :=
  fold_left (fun acc d => acc * 10 + (d - 48)) digits 0.

Lemma status_message_roundtrip : forall st, 0 <= st < 1000 ->
  decimal_value (number_toString st) = st.
Proof.
  assert (Hall : forallb (fun n => Z.eqb (decimal_value (number_toString (Z.of_nat n)))
                                         (Z.of_nat n)) (seq 0 1000) = true)
    by (vm_compute; reflexivity).
  intros st Hst. rewrite forallb_forall in Hall.
  specialize (Hall (Z.to_nat st)). rewrite Z2Nat.id in Hall by lia.
  apply Z.eqb_eq, Hall, in_seq. lia.
Qed.

(** C2 *)
(** Claim C2: for every endpoint method of both classes that sends its
    request, when the response (arriving before the timeout) has a status
    outside 200-299 the call throws [Error("HTTP error! status: " + status)],
    from whose message the status reads back; with a status in 200-299 it
    throws no HTTP error and returns the parsed JSON body. *)
Theorem http_status_decides_result : forall w s a r,
  fresh_signal s ->
  (forall u i, w u i = Reply a r) ->
  0 <= a < timer_delay (timeout (self s)) ->
  (forall call eo, PriceDBClient.request_of call = Ok eo ->
     fst (PriceDBClient.run call w s) =
     if ok r then match body r with Some j => Ret j | None => Throw SyntaxError end
     else Throw (Error (lit "HTTP error! status: " ++ number_toString (status r)))) /\
  (forall call,
     fst (SpellsClient.run call w s) =
     if ok r then match body r with Some j => Ret j | None => Throw SyntaxError end
     else Throw (Error (lit "HTTP error! status: " ++ number_toString (status r)))) /\
  (0 <= status r < 1000 -> decimal_value (number_toString (status r)) = status r).
Proof.
  intros w s a r Hfresh Hw Hdl. split; [| split].
  - intros call eo Heo. rewrite PriceDBClient_run_request, Heo.
    apply (request_reply_before_deadline _ _ w s a r Hfresh Hw Hdl).
  - intros call. rewrite SpellsClient_run_request.
    apply (request_reply_before_deadline _ _ w s a r Hfresh Hw Hdl).
  - apply status_message_roundtrip.
Qed.

Lemma http_status_decides_result_witness :
  let s := initial_rt (new_PriceDBClient empty_config) in
  let w : server := fun _ _ => Reply 20 (mk_response 429 None) in
  fst (PriceDBClient.run PriceDBClient.GetItems w s)
  = Throw (Error (lit "HTTP error! status: 429")).
Proof.
  intros s w.
  destruct (http_status_decides_result w s 20 (mk_response 429 None)) as [H _].
  - split; [constructor | intros []].
  - reflexivity.
  - vm_compute. split; [intro; discriminate | reflexivity].
  - rewrite (H PriceDBClient.GetItems (lit "/api/items", no_init) eq_refl).
    vm_compute. reflexivity.
Defined.

(** The server of a test that never answers. *)
Definition silent_server : server := fun _ _ => NoReply.

(** The identifiers a [PriceDBClient] call puts in its path. *)
Definition path_skus (call : PriceDBClient.Call) : list jstr :=
  match call with
  | PriceDBClient.GetItem sku
  | PriceDBClient.GetItemHistory sku _
  | PriceDBClient.GetItemStats sku => [sku]
  | PriceDBClient.CompareItems sku1 sku2 => [sku1; sku2]
  | _ => []
  end.

(** A call stopped before [request] was stopped by one of its identifiers. *)
Lemma request_of_error_sku : forall call e,
  PriceDBClient.request_of call = Exn e ->
  exists sku, In sku (path_skus call) /\ encodeURIComponent sku = Exn URIError.
Proof.
  intros [| | | o | sku | sku o | sku | skus | t | o | sku1 sku2 |] e H;
    cbn in H; try discriminate;
    unfold PriceDBClient.getItem_endpoint, PriceDBClient.getItemHistory_endpoint,
      PriceDBClient.getItemStats_endpoint, PriceDBClient.compareItems_endpoint in H;
    cbn [path_skus].
  - destruct (encodeURIComponent sku) as [x|err] eqn:E; cbn in H; [discriminate|].
    rewrite (encodeURIComponent_error _ _ E) in E. exists sku. split; [left |]; auto.
  - destruct (encodeURIComponent sku) as [x|err] eqn:E; cbn in H; [discriminate|].
    rewrite (encodeURIComponent_error _ _ E) in E. exists sku. split; [left |]; auto.
  - destruct (encodeURIComponent sku) as [x|err] eqn:E; cbn in H; [discriminate|].
    rewrite (encodeURIComponent_error _ _ E) in E. exists sku. split; [left |]; auto.
  - destruct (encodeURIComponent sku1) as [x1|err1] eqn:E1.
    + destruct (encodeURIComponent sku2) as [x2|err2] eqn:E2; cbn in H; [discriminate|].
      rewrite (encodeURIComponent_error _ _ E2) in E2.
      exists sku2. split; [right; left |]; auto.
    + rewrite (encodeURIComponent_error _ _ E1) in E1.
      exists sku1. split; [left |]; auto.
Qed.

(** C3 *)
(** Claim C3 (amended): the effective timeout is the configured one when it
    is given and truthy, and 10000 ms when it is omitted, 0 or NaN
    ([config.timeout || 10000]). Against a server that never answers, every
    call of [SpellsClient], and every call of [PriceDBClient] whose
    identifiers [encodeURIComponent] accepts, settles with an AbortError no
    later than the host timer delay after it starts; a [PriceDBClient] call
    with an identifier [encodeURIComponent] rejects throws a URIError at
    once, before any request, leaving the state unchanged. The host timer
    delay is the effective timeout when it is an integer in
    [1, 2147483647], and 1 ms otherwise. *)
Theorem calls_fail_by_timeout : forall default_base cfg s,
  self s = construct default_base cfg ->
  (forall T, cfg_timeout cfg = Some T -> truthy_number T = true -> timeout (self s) = T) /\
  ((cfg_timeout cfg = None \/ cfg_timeout cfg = Some (Num 0) \/ cfg_timeout cfg = Some NaN) ->
   timeout (self s) = Num 10000) /\
  (forall T, timeout (self s) = Num T -> 1 <= T <= 2147483647 ->
   timer_delay (timeout (self s)) = T) /\
  ((forall T, timeout (self s) = Num T -> ~ (1 <= T <= 2147483647)) ->
   timer_delay (timeout (self s)) = 1) /\
  (forall call,
     let '(r, s') := PriceDBClient.run call silent_server s in
     match PriceDBClient.request_of call with
     | Ok _ => r = Throw AbortError /\ now s <= now s' <= now s + timer_delay (timeout (self s))
     | Exn _ =>
         r = Throw URIError /\ s' = s /\
         exists sku, In sku (path_skus call) /\ encodeURIComponent sku = Exn URIError
     end) /\
  (forall call,
     let '(r, s') := SpellsClient.run call silent_server s in
     r = Throw AbortError /\ now s <= now s' <= now s + timer_delay (timeout (self s))).
Proof.
  intros default_base cfg s Hself.
  split; [| split; [| split; [| split; [| split]]]].
  - intros T HT H0. rewrite Hself. cbn [construct timeout]. rewrite HT. unfold or_num.
    rewrite H0. reflexivity.
  - intros [H | [H | H]]; rewrite Hself; cbn [construct timeout]; rewrite H; reflexivity.
  - intros T HT Hr. rewrite HT. apply timer_delay_in_range. exact Hr.
  - intros Hn. destruct (timeout (self s)) as [T| | |] eqn:HT; cbn [timer_delay]; try reflexivity.
    specialize (Hn T eq_refl).
    destruct (Z.leb_spec 1 T); destruct (Z.leb_spec T 2147483647); cbn; lia.
  - intros call. rewrite PriceDBClient_run_request.
    destruct (PriceDBClient.request_of call) as [eo | e] eqn:Hreq.
    + pose proof (request_no_reply (fst eo) (snd eo) s) as Hn.
      unfold silent_server. exact Hn.
    + rewrite (PriceDBClient_request_of_error call e Hreq).
      cbn. split; [reflexivity | split; [reflexivity | exact (request_of_error_sku call e Hreq)]].
  - intros call. rewrite SpellsClient_run_request.
    exact (request_no_reply (fst (SpellsClient.request_of call))
             (snd (SpellsClient.request_of call)) s).
Qed.

Lemma calls_fail_by_timeout_witness :
  let cfg := mk_config None (Some NaN) None in
  let s := initial_rt (new_PriceDBClient cfg) in
  timeout (self s) = Num 10000 /\
  (let '(r, s') := PriceDBClient.run (PriceDBClient.GetItem [55296]) silent_server s in
   r = Throw URIError /\ s' = s /\
   exists sku, In sku [[55296]] /\ encodeURIComponent sku = Exn URIError).
Proof.
  intros cfg s.
  destruct (calls_fail_by_timeout (lit "https://pricedb.io") cfg s eq_refl)
    as (_ & H10 & _ & _ & H & _).
  split; [apply H10; right; right; reflexivity|].
  exact (H (PriceDBClient.GetItem [55296])).
Defined.

(** A configured timeout of 0 is replaced by 10000 ms: against a silent
    server the call is aborted only at 10000 ms, not after about 0 ms. *)
Lemma zero_timeout_waits_default :
  let cfg := mk_config None (Some (Num 0)) None in
  let s := initial_rt (new_PriceDBClient cfg) in
  timeout (self s) = Num 10000 /\
  fst (PriceDBClient.run PriceDBClient.GetItems silent_server s) = Throw AbortError /\
  now (snd (PriceDBClient.run PriceDBClient.GetItems silent_server s)) = 10000 /\
  ~ (now (snd (PriceDBClient.run PriceDBClient.GetItems silent_server s)) <= 0 + 9999).
Proof. vm_compute. split; [reflexivity|]. split; [reflexivity|]. split; [reflexivity|]. intro H; apply H; reflexivity. Qed.

(** [request] always hands its request to [fetch]. *)
Lemma request_logs_fetch : forall endpoint options w s,
  In (Fetch (baseUrl (self s) ++ endpoint)
         {| init_method := ri_method options;
            init_body := ri_body options;
            init_headers := spread_into (spread_into [] (Some (headers (self s))))
                              (ri_headers options);
            init_signal := next_id s |})
     (log (snd (request endpoint options w s))).
Proof.
  intros endpoint options w s. unfold request. unfold_monad. cbn.
  split_matches; rewrite <- !app_assoc; apply in_app_iff; right; cbn; tauto.
Qed.

(** C7 *)
(** Claim C7: [getItemsBulk([])] throws nothing before the network call:
    it sends a POST to [/api/items-bulk] whose body is exactly
    [{"skus":[]}]. *)
Theorem getItemsBulk_empty_sends_request : forall w s,
  exists i,
    In (Fetch (baseUrl (self s) ++ lit "/api/items-bulk") i)
       (log (snd (PriceDBClient.getItemsBulk [] w s))) /\
    init_method i = Some (lit "POST") /\
    init_body i = Some ([123; 34] ++ lit "skus" ++ [34] ++ lit ":[]}").
Proof.
  intros w s. eexists. split; [apply request_logs_fetch|]. split; reflexivity.
Qed.

(** The body the scenario's server sends back for an item lookup. *)
Definition test_item : json :=
  JObj [(lit "name", JStr (lit "Test Item"));
        (lit "sku", JStr (lit "1;6"));
        (lit "buy", JObj [(lit "keys", JNum 1); (lit "metal", JNum 2)]);
        (lit "sell", JObj [(lit "keys", JNum 1); (lit "metal", JNum 3)]);
        (lit "source", JStr (lit "x"));
        (lit "time", JNum 1700000000)].

(** C8 *)
(** Claim C8: when the server answers an item lookup with a success status
    and the JSON object [test_item], [getItem] returns that same value: the
    same members with the same numbers, unvalidated and untransformed. *)
Theorem getItem_returns_body_verbatim : forall sku endpoint w s a st,
  PriceDBClient.getItem_endpoint sku = Ok endpoint ->
  fresh_signal s ->
  (forall u i, w u i = Reply a (mk_response st (Some test_item))) ->
  200 <= st <= 299 ->
  0 <= a < timer_delay (timeout (self s)) ->
  fst (PriceDBClient.getItem sku w s) = Ret test_item.
Proof.
  intros sku endpoint w s a st Hep Hfresh Hw Hst Hdl.
  unfold PriceDBClient.getItem. unfold bind at 1, lift. rewrite Hep. cbn [ret].
  rewrite (request_reply_before_deadline endpoint no_init w s a _ Hfresh Hw Hdl).
  unfold ok. cbn [status body].
  rewrite (proj2 (Z.leb_le 200 st)), (proj2 (Z.leb_le st 299)) by lia.
  reflexivity.
Qed.

Lemma getItem_returns_body_verbatim_witness :
  let s := initial_rt (new_PriceDBClient empty_config) in
  let w : server := fun _ _ => Reply 30 (mk_response 200 (Some test_item)) in
  fst (PriceDBClient.getItem (lit "1;6") w s) = Ret test_item.
Proof.
  intros s w.
  apply (getItem_returns_body_verbatim (lit "1;6") (lit "/api/item/1%3B6") w s 30 200).
  - vm_compute. reflexivity.
  - split; [constructor | intros []].
  - intros u i. reflexivity.
  - lia.
  - vm_compute. split; [intro; discriminate | reflexivity].
Defined.

(** C9 *)
(** Claim C9: a numeric option equal to 0 is falsy and is left out of the
    query string: [limit]/[offset] of [getPrices], [start]/[end] of
    [getItemHistory] and [limit] of [search] give the same endpoint, and
    the same call, as when the option is omitted. *)
Theorem zero_options_are_omitted :
  (forall o, PriceDBClient.getPrices_endpoint (PriceDBClient.mk_pagination (Some (Num 0)) o)
             = PriceDBClient.getPrices_endpoint (PriceDBClient.mk_pagination None o)) /\
  (forall l, PriceDBClient.getPrices_endpoint (PriceDBClient.mk_pagination l (Some (Num 0)))
             = PriceDBClient.getPrices_endpoint (PriceDBClient.mk_pagination l None)) /\
  (forall sku o,
     PriceDBClient.getItemHistory_endpoint sku (PriceDBClient.mk_history (Some (Num 0)) o)
     = PriceDBClient.getItemHistory_endpoint sku (PriceDBClient.mk_history None o)) /\
  (forall sku o,
     PriceDBClient.getItemHistory_endpoint sku (PriceDBClient.mk_history o (Some (Num 0)))
     = PriceDBClient.getItemHistory_endpoint sku (PriceDBClient.mk_history o None)) /\
  (forall q, PriceDBClient.search_endpoint (PriceDBClient.mk_search q (Some (Num 0)))
             = PriceDBClient.search_endpoint (PriceDBClient.mk_search q None)) /\
  (forall o, PriceDBClient.getPrices (PriceDBClient.mk_pagination (Some (Num 0)) o)
             = PriceDBClient.getPrices (PriceDBClient.mk_pagination None o)) /\
  (forall l, PriceDBClient.getPrices (PriceDBClient.mk_pagination l (Some (Num 0)))
             = PriceDBClient.getPrices (PriceDBClient.mk_pagination l None)) /\
  (forall sku o,
     PriceDBClient.getItemHistory sku (PriceDBClient.mk_history (Some (Num 0)) o)
     = PriceDBClient.getItemHistory sku (PriceDBClient.mk_history None o)) /\
  (forall sku o,
     PriceDBClient.getItemHistory sku (PriceDBClient.mk_history o (Some (Num 0)))
     = PriceDBClient.getItemHistory sku (PriceDBClient.mk_history o None)) /\
  (forall q, PriceDBClient.search (PriceDBClient.mk_search q (Some (Num 0)))
             = PriceDBClient.search (PriceDBClient.mk_search q None)).
Proof. repeat split; reflexivity. Qed.

(** ** Header merging at construction *)

Lemma jstr_eqb_spec : forall a b, reflect (a = b) (jstr_eqb a b).
Proof.
  intros a b. unfold jstr_eqb. destruct (list_eq_dec Z.eq_dec a b); constructor; assumption.
Qed.

Lemma obj_get_set : forall o k v k',
  obj_get (obj_set o k v) k' = if jstr_eqb k' k then Some v else obj_get o k'.
Proof.
  induction o as [| [k0 v0] rest IH]; intros k v k'; cbn.
  - reflexivity.
  - destruct (jstr_eqb_spec k k0) as [-> | Hne]; cbn.
    + destruct (jstr_eqb_spec k' k0); reflexivity.
    + rewrite IH. destruct (jstr_eqb_spec k' k0) as [-> | Hne'].
      * destruct (jstr_eqb_spec k0 k); [congruence | reflexivity].
      * reflexivity.
Qed.

Definition set_member (acc : obj) (kv : jstr * jstr) : obj := obj_set acc (fst kv) (snd kv).

Lemma spread_untouched : forall H acc k,
  ~ In k (map fst H) ->
  obj_get (fold_left set_member H acc) k = obj_get acc k.
Proof.
  induction H as [| [k0 v0] H IH]; intros acc k Hn; cbn in *; [reflexivity|].
  rewrite IH by tauto. unfold set_member. cbn. rewrite obj_get_set.
  destruct (jstr_eqb_spec k k0); [subst; tauto | reflexivity].
Qed.

Lemma spread_member : forall H acc k v,
  NoDup (map fst H) -> obj_get H k = Some v ->
  obj_get (fold_left set_member H acc) k = Some v.
Proof.
  induction H as [| [k0 v0] H IH]; intros acc k v Hnd Hk; cbn in *; [discriminate|].
  inversion Hnd as [| ? ? Hn0 Hnd']; subst.
  destruct (jstr_eqb_spec k k0) as [-> | Hne].
  - inversion Hk; subst. rewrite spread_untouched by exact Hn0.
    unfold set_member. cbn. rewrite obj_get_set.
    destruct (jstr_eqb_spec k0 k0); [reflexivity | congruence].
  - apply IH; assumption.
Qed.

Lemma obj_get_none : forall H k, obj_get H k = None -> ~ In k (map fst H).
Proof.
  induction H as [| [k0 v0] H IH]; intros k Hk; cbn in *; [tauto|].
  destruct (jstr_eqb_spec k k0); [discriminate|].
  intros [Heq | Hin]; [congruence | exact (IH k Hk Hin)].
Qed.

(** C4 *)
(** Claim C4: for headers [H] (an object: no repeated key) passed to the
    constructor of either class, the instance's headers still bind
    [Content-Type] to [application/json] when [H] has no [Content-Type]
    key, and bind every key of [H] to [H]'s value. *)
Theorem constructor_keeps_default_content_type : forall cfg H c,
  cfg_headers cfg = Some H ->
  NoDup (map fst H) ->
  c = new_PriceDBClient cfg \/ c = new_SpellsClient cfg ->
  (obj_get H (lit "Content-Type") = None ->
   obj_get (headers c) (lit "Content-Type") = Some (lit "application/json")) /\
  (forall k v, obj_get H k = Some v -> obj_get (headers c) k = Some v).
Proof.
  intros cfg H c Hcfg Hnd Hc.
  assert (Hh : headers c = fold_left set_member H content_type_default)
    by (destruct Hc as [-> | ->]; cbn; rewrite Hcfg; reflexivity).
  rewrite Hh. split.
  - intros Hnone. rewrite spread_untouched by (apply obj_get_none; exact Hnone).
    reflexivity.
  - intros k v Hk. apply spread_member; assumption.
Qed.

Lemma constructor_keeps_default_content_type_witness :
  let H := [(lit "Authorization", lit "Bearer t"); (lit "Accept", lit "*/*")] in
  let cfg := mk_config None None (Some H) in
  obj_get (headers (new_PriceDBClient cfg)) (lit "Content-Type") = Some (lit "application/json") /\
  obj_get (headers (new_PriceDBClient cfg)) (lit "Accept") = Some (lit "*/*").
Proof.
  intros H cfg.
  destruct (constructor_keeps_default_content_type cfg H (new_PriceDBClient cfg)
              eq_refl) as [H1 H2].
  - vm_compute. repeat constructor; cbn; intuition discriminate.
  - left. reflexivity.
  - split; [apply H1; vm_compute; reflexivity | apply H2; vm_compute; reflexivity].
Defined.

(** ** [encodeURIComponent]: output alphabet and injectivity

    The proofs read an encoded segment back with a decoder of percent
    escapes, UTF-8 and UTF-16, a left inverse of [encodeURIComponent] on
    the strings it accepts. *)

Definition hex_value (c : Z) : Z := if c <=? 57 then c - 48 else c - 55.


Fixpoint utf8_decode (t : list (Z + Z)) : jstr :=
  match t with
  | [] => []
  | inl c :: rest => c :: utf8_decode rest
  | inr b :: rest =>
      if b <? 128 then b :: utf8_decode rest
      else if b <? 224 then
        match rest with
        | inr b2 :: rest' => to_utf16 ((b - 192) * 64 + (b2 - 128)) ++ utf8_decode rest'
        | _ => []
        end
      else if b <? 240 then
        match rest with
        | inr b2 :: inr b3 :: rest' =>
            to_utf16 ((b - 224) * 4096 + (b2 - 128) * 64 + (b3 - 128)) ++ utf8_decode rest'
        | _ => []
        end
      else
        match rest with
        | inr b2 :: inr b3 :: inr b4 :: rest' =>
            to_utf16 ((b - 240) * 262144 + (b2 - 128) * 4096 + (b3 - 128) * 64 + (b4 - 128))
            ++ utf8_decode rest'
        | _ => []
        end
  end.

Ltac zsolve := Z.div_mod_to_equations; lia.

Lemma hex_value_digit : forall n, 0 <= n < 16 -> hex_value (hex_digit n) = n.
Proof.
  intros n Hn. unfold hex_digit, hex_value.
  destruct (Z.ltb_spec n 10).
  - rewrite (proj2 (Z.leb_le _ _)) by lia. lia.
  - rewrite (proj2 (Z.leb_gt _ _)) by lia. lia.
Qed.



Lemma utf8_bytes_range : forall cp, 0 <= cp < 1114112 ->
  Forall (fun b => 0 <= b < 256) (utf8_bytes cp).
Proof.
  intros cp Hcp. unfold utf8_bytes.
  destruct (Z.ltb_spec cp 128); [repeat constructor; lia|].
  destruct (Z.ltb_spec cp 2048); [repeat constructor; zsolve|].
  destruct (Z.ltb_spec cp 65536); repeat constructor; zsolve.
Qed.

Lemma utf8_decode_bytes : forall cp t, 0 <= cp < 1114112 ->
  utf8_decode (map inr (utf8_bytes cp) ++ t) = to_utf16 cp ++ utf8_decode t.
Proof.
  intros cp t Hcp. unfold utf8_bytes.
  destruct (Z.ltb_spec cp 128).
  - cbn. rewrite (proj2 (Z.ltb_lt cp 128)) by lia. unfold to_utf16.
    rewrite (proj2 (Z.ltb_lt cp 65536)) by lia. reflexivity.
  - destruct (Z.ltb_spec cp 2048).
    + cbn [map app utf8_decode].
      rewrite (proj2 (Z.ltb_ge (192 + cp / 64) 128)) by zsolve.
      rewrite (proj2 (Z.ltb_lt (192 + cp / 64) 224)) by zsolve.
      f_equal. f_equal. zsolve.
    + destruct (Z.ltb_spec cp 65536).
      * cbn [map app utf8_decode].
        rewrite (proj2 (Z.ltb_ge (224 + cp / 4096) 128)) by zsolve.
        rewrite (proj2 (Z.ltb_ge (224 + cp / 4096) 224)) by zsolve.
        rewrite (proj2 (Z.ltb_lt (224 + cp / 4096) 240)) by zsolve.
        f_equal. f_equal. zsolve.
      * cbn [map app utf8_decode].
        rewrite (proj2 (Z.ltb_ge (240 + cp / 262144) 128)) by zsolve.
        rewrite (proj2 (Z.ltb_ge (240 + cp / 262144) 224)) by zsolve.
        rewrite (proj2 (Z.ltb_ge (240 + cp / 262144) 240)) by zsolve.
        f_equal. f_equal. zsolve.
Qed.

Lemma to_utf16_bmp : forall u, 0 <= u < 65536 -> to_utf16 u = [u].
Proof.
  intros u Hu. unfold to_utf16. rewrite (proj2 (Z.ltb_lt u 65536)) by lia. reflexivity.
Qed.

Lemma surrogate_pair_range : forall hi lo,
  is_high_surrogate hi = true -> is_low_surrogate lo = true ->
  65536 <= surrogate_pair_cp hi lo < 1114112.
Proof.
  unfold is_high_surrogate, is_low_surrogate, surrogate_pair_cp.
  intros hi lo Hh Hl. apply andb_true_iff in Hh as [Hh1 Hh2].
  apply andb_true_iff in Hl as [Hl1 Hl2]. apply Z.leb_le in Hh1, Hh2, Hl1, Hl2. lia.
Qed.

Lemma to_utf16_pair : forall hi lo,
  is_high_surrogate hi = true -> is_low_surrogate lo = true ->
  to_utf16 (surrogate_pair_cp hi lo) = [hi; lo].
Proof.
  intros hi lo Hh Hl. pose proof (surrogate_pair_range hi lo Hh Hl).
  unfold is_high_surrogate, is_low_surrogate in *.
  apply andb_true_iff in Hh as [Hh1 Hh2].
  apply andb_true_iff in Hl as [Hl1 Hl2]. apply Z.leb_le in Hh1, Hh2, Hl1, Hl2.
  unfold to_utf16. rewrite (proj2 (Z.ltb_ge _ 65536)) by lia.
  unfold surrogate_pair_cp in *. f_equal; [| f_equal]; zsolve.
Qed.








Definition valid_jstrb (s : jstr) : bool :=
  forallb (fun u => (0 <=? u) && (u <=? 65535)) s.

Lemma valid_jstrb_ok : forall s, valid_jstrb s = true -> valid_jstr s.
Proof.
  intros s H. apply Forall_forall. intros u Hu.
  unfold valid_jstrb in H. rewrite forallb_forall in H.
  apply H, andb_true_iff in Hu as [H1 H2]. apply Z.leb_le in H1, H2. lia.
Qed.





(** ** Request paths after URL parsing *)











































(** Prior calls, whatever they do, leave the client's fields alone. *)
Lemma run_calls_self : forall prior w s, self (snd (run_calls prior w s)) = self s.
Proof.
  induction prior as [| c rest IH]; intros w s; [reflexivity|].
  cbn [run_calls]. unfold bind, catch_all.
  destruct (PriceDBClient_run_frame c w s) as [Hself _].
  destruct (PriceDBClient.run c w s) as [r s'] eqn:E; cbn in Hself.
  destruct r; cbn; [rewrite IH | rewrite IH | ]; exact Hself.
Qed.

(** C1 *)
(** Claim C1: after any sequence of earlier calls on a client whose
    [baseUrl] is [https://pricedb.io], [getGraphUrl(sku, {header: false,
    height: 400})] returns exactly
    [https://pricedb.io/api/graph/] ++ [encodeURIComponent(sku)] ++
    [?header=false&height=400] and returns the state unchanged: no timer,
    no request, nothing logged. The result does not depend on the server
    or on the earlier calls. (For a sku with a lone surrogate,
    [encodeURIComponent] throws URIError, and so does [getGraphUrl].) *)
Theorem getGraphUrl_is_pure : forall prior w s sku,
  baseUrl (self s) = lit "https://pricedb.io" ->
  let s1 := snd (run_calls prior w s) in
  PriceDBClient.getGraphUrl sku (PriceDBClient.mk_graph (Some false) (Some (Num 400)) None) w s1
  = (match encodeURIComponent sku with
     | Ok e => Ret (lit "https://pricedb.io/api/graph/" ++ e ++ lit "?header=false&height=400")
     | Exn err => Throw err
     end, s1).
Proof.
  intros prior w s sku Hbase s1.
  unfold PriceDBClient.getGraphUrl, bind, get_self, lift.
  assert (Hs1 : baseUrl (self s1) = lit "https://pricedb.io")
    by (unfold s1; rewrite run_calls_self; exact Hbase).
  rewrite Hs1. clearbody s1.
  unfold PriceDBClient.graph_url.
  destruct (encodeURIComponent sku) as [e | err]; reflexivity.
Qed.

Lemma getGraphUrl_is_pure_witness :
  fst (PriceDBClient.getGraphUrl (lit "5021;6")
         (PriceDBClient.mk_graph (Some false) (Some (Num 400)) None) silent_server
         (snd (run_calls [PriceDBClient.GetItems; PriceDBClient.GetItem (lit "5021;6")]
                 silent_server (initial_rt (new_PriceDBClient empty_config)))))
  = Ret (lit "https://pricedb.io/api/graph/5021%3B6?header=false&height=400").
Proof.
  rewrite (getGraphUrl_is_pure [PriceDBClient.GetItems; PriceDBClient.GetItem (lit "5021;6")]
             silent_server (initial_rt (new_PriceDBClient empty_config)) (lit "5021;6")).
  - vm_compute. reflexivity.
  - reflexivity.
Defined.

(* ------------------------------------------------------------------ *)
(** * Further properties of the transport core and the endpoint methods *)

(** ** Outcome of [request] by what the server does and when *)

Lemma request_first_event : forall endpoint options w s,
  fresh_signal s ->
  request endpoint options w s =
  (let c := self s in
   let tid := S (next_id s) in
   let t := mk_timer tid (now s + timer_delay (timeout c)) (next_id s) in
   let init := {| init_method := ri_method options; init_body := ri_body options;
                  init_headers := spread_into (spread_into [] (Some (headers c)))
                                    (ri_headers options);
                  init_signal := next_id s |} in
   let lg := (log s ++ [SetTimeout tid (timeout c)]) ++ [Fetch (baseUrl c ++ endpoint) init] in
   let ts := timers s ++ [t] in
   let fire :=
     (Throw AbortError,
      mk_rt (Z.max (now s) (timer_due t)) c (S tid)
        (filter (fun t' => negb (Nat.eqb (timer_id t') tid))
           (filter (fun t' => negb (Nat.eqb (timer_id t') tid)) ts))
        (next_id s :: aborted s)
        ((lg ++ [TimerFired tid; Abort (next_id s)]) ++ [ClearTimeout tid])) in
   let settle (a : Z) (r : res json) :=
     (r, mk_rt a c (S tid) (filter (fun t' => negb (Nat.eqb (timer_id t') tid)) ts)
           (aborted s) (lg ++ [ClearTimeout tid])) in
   match w (baseUrl c ++ endpoint) init with
   | NoReply => fire
   | NetworkFailure a =>
       if now s + Z.max 0 a <? timer_due t then settle (now s + Z.max 0 a) (Throw TypeError)
       else fire
   | Reply a r =>
       if now s + Z.max 0 a <? timer_due t then
         settle (now s + Z.max 0 a)
           (if ok r then match body r with Some j => Ret j | None => Throw SyntaxError end
            else Throw (Error (http_error_message (status r))))
       else fire
   end).
Proof.
  intros endpoint options w s [Ht Ha].
  unfold request. unfold_monad. cbn.
  rewrite existsb_fresh by exact Ha.
  rewrite first_due_fresh by (exact Ht || reflexivity). cbn.
  destruct (w _ _) as [| a | a r]; cbn; [reflexivity | |].
  - destruct (now s + Z.max 0 a <? now s + timer_delay (timeout (self s))); reflexivity.
  - destruct (now s + Z.max 0 a <? now s + timer_delay (timeout (self s))); [| reflexivity].
    destruct (ok r); cbn; [destruct (body r)|]; reflexivity.
Qed.

(** X1 *)
(** A server that has not answered by the deadline does not matter: when
    neither a response nor a network failure arrives before the instance's
    timeout, [request] rejects with AbortError exactly when the timer fires,
    and a response arriving at or after that instant is discarded. *)
Theorem request_late_reply_aborts : forall endpoint options w s,
  fresh_signal s ->
  (forall u i, match w u i with
               | NoReply => True
               | NetworkFailure a | Reply a _ => timer_delay (timeout (self s)) <= a
               end) ->
  let '(r, s') := request endpoint options w s in
  r = Throw AbortError /\ now s' = now s + timer_delay (timeout (self s)).
Proof.
  intros endpoint options w s Hf Hw.
  pose proof (timer_delay_pos (timeout (self s))).
  rewrite (request_first_event endpoint options w s Hf). cbn zeta.
  match goal with |- context [w ?u ?i] => specialize (Hw u i); destruct (w u i) end;
    cbn [timer_due];
    try rewrite (proj2 (Z.ltb_ge _ _)) by lia; cbn; split; try reflexivity; lia.
Qed.

Lemma request_late_reply_aborts_witness :
  let s := initial_rt (new_PriceDBClient empty_config) in
  let w : server := fun _ _ => Reply 15000 (mk_response 200 (Some JNull)) in
  let '(r, s') := request (lit "/api/items") no_init w s in
  r = Throw AbortError /\ now s' = now s + timer_delay (timeout (self s)).
Proof.
  intros s w. apply request_late_reply_aborts.
  - split; [constructor | intros []].
  - intros u i. vm_compute. intros; discriminate.
Defined.

(** X2 *)
(** A network failure before the deadline is passed to the caller as
    fetch's own TypeError, at the moment it happens: it is neither turned
    into an HTTP-status error nor delayed to the timeout. *)
Theorem request_network_failure_propagates : forall endpoint options w s a,
  fresh_signal s ->
  (forall u i, w u i = NetworkFailure a) ->
  a < timer_delay (timeout (self s)) ->
  let '(r, s') := request endpoint options w s in
  r = Throw TypeError /\ now s' = now s + Z.max 0 a.
Proof.
  intros endpoint options w s a Hf Hw Ha.
  pose proof (timer_delay_pos (timeout (self s))).
  rewrite (request_first_event endpoint options w s Hf). cbn zeta.
  rewrite Hw. cbn [timer_due].
  rewrite (proj2 (Z.ltb_lt _ _)) by lia. cbn. split; reflexivity.
Qed.

Lemma request_network_failure_propagates_witness :
  let s := initial_rt (new_SpellsClient empty_config) in
  let '(r, s') := request (lit "/api/spell/spells") no_init (fun _ _ => NetworkFailure 30) s in
  r = Throw TypeError /\ now s' = now s + Z.max 0 30.
Proof.
  intros s. apply request_network_failure_propagates.
  - split; [constructor | intros []].
  - intros u i. reflexivity.
  - vm_compute. reflexivity.
Defined.

(** ** One request per call, no timer left behind *)

Definition is_fetch (e : effect) : bool := match e with Fetch _ _ => true | _ => false end.

(** The number of requests sent, as logged. *)
Definition fetch_count (l : list effect) : nat := List.length (filter is_fetch l).

Lemma fetch_count_app : forall l1 l2,
  fetch_count (l1 ++ l2) = (fetch_count l1 + fetch_count l2)%nat.
Proof. intros l1 l2. unfold fetch_count. rewrite filter_app, length_app. reflexivity. Qed.

Lemma request_one_fetch : forall endpoint options w s,
  fetch_count (log (snd (request endpoint options w s))) = S (fetch_count (log s)).
Proof.
  intros endpoint options w s.
  destruct (request_frame endpoint options w s) as (_ & new & Hlog & _).
  unfold request in *. unfold_monad. cbn in *.
  split_matches; rewrite !filter_app, !length_app; cbn; unfold fetch_count; lia.
Qed.

(** X3 *)
(** Every endpoint call sends exactly one HTTP request, whatever the server
    does (no retry, no second request after an error or a timeout); a
    [PriceDBClient] call whose identifier [encodeURIComponent] rejects sends
    none. *)
Theorem one_request_per_call :
  (forall call w s,
     fetch_count (log (snd (PriceDBClient.run call w s)))
     = (fetch_count (log s)
        + match PriceDBClient.request_of call with Ok _ => 1 | Exn _ => 0 end)%nat) /\
  (forall call w s,
     fetch_count (log (snd (SpellsClient.run call w s))) = S (fetch_count (log s))).
Proof.
  split; intros call w s.
  - rewrite PriceDBClient_run_request.
    destruct (PriceDBClient.request_of call); cbn [snd].
    + rewrite request_one_fetch. lia.
    + lia.
  - rewrite SpellsClient_run_request. apply request_one_fetch.
Qed.

Lemma request_no_timers : forall endpoint options w s,
  timers s = [] -> timers (snd (request endpoint options w s)) = [].
Proof.
  intros endpoint options w s H.
  unfold request. unfold_monad. cbn. rewrite H. cbn [app].
  split_matches; rewrite ?Nat.eqb_refl in *; cbn in *; try discriminate; reflexivity.
Qed.

(** X4 *)
(** No call leaves a timer behind: starting with no pending timer, a call
    of either class, and any sequence of [PriceDBClient] calls whose errors
    are caught, end with no pending timer, whatever the server does. *)
Theorem calls_leave_no_pending_timer :
  (forall call w s, timers s = [] -> timers (snd (PriceDBClient.run call w s)) = []) /\
  (forall call w s, timers s = [] -> timers (snd (SpellsClient.run call w s)) = []) /\
  (forall calls w s, timers s = [] -> timers (snd (run_calls calls w s)) = []).
Proof.
  assert (Hp : forall call w s, timers s = [] -> timers (snd (PriceDBClient.run call w s)) = []).
  { intros call w s H. rewrite PriceDBClient_run_request.
    destruct (PriceDBClient.request_of call); [apply request_no_timers | ]; exact H. }
  split; [exact Hp|]. split.
  - intros call w s H. rewrite SpellsClient_run_request. apply request_no_timers. exact H.
  - induction calls as [| c rest IH]; intros w s H; [exact H|].
    cbn [run_calls]. unfold bind, catch_all.
    pose proof (Hp c w s H) as Hc.
    destruct (PriceDBClient.run c w s) as [r s'].
    destruct r; cbn in *; [apply IH | apply IH | ]; exact Hc.
Qed.

Lemma calls_leave_no_pending_timer_witness :
  timers (snd (run_calls [PriceDBClient.GetItems; PriceDBClient.GetItem (lit "5021;6")]
                 (fun _ _ => NoReply) (initial_rt (new_PriceDBClient empty_config)))) = [].
Proof.
  destruct calls_leave_no_pending_timer as (_ & _ & H). apply H. reflexivity.
Defined.

(** ** Identifiers rejected before any request *)

(** Well-formed UTF-16: every surrogate is part of a pair. *)
Fixpoint well_formed (s : jstr) : bool :=
  match s with
  | [] => true
  | u :: rest =>
      if is_low_surrogate u then false
      else if is_high_surrogate u then
        match rest with
        | lo :: rest' => is_low_surrogate lo && well_formed rest'
        | [] => false
        end
      else well_formed rest
  end.

Lemma unreserved_not_surrogate : forall u, uri_unreserved u = true ->
  is_high_surrogate u = false /\ is_low_surrogate u = false.
Proof.
  intros u H. assert (Hu : u < 127).
  { unfold uri_unreserved in H. cbn [existsb] in H.
    rewrite ?orb_true_iff, ?andb_true_iff, ?Z.leb_le, ?Z.eqb_eq in H.
    repeat match goal with
           | H : _ \/ _ |- _ => destruct H
           | H : _ /\ _ |- _ => destruct H
           end; first [lia | discriminate]. }
  unfold is_high_surrogate, is_low_surrogate.
  rewrite (proj2 (Z.leb_gt 55296 u)), (proj2 (Z.leb_gt 56320 u)) by lia. split; reflexivity.
Qed.

(** [encodeURIComponent] succeeds exactly on well-formed strings. *)
Lemma encodeURIComponent_well_formed : forall s,
  match encodeURIComponent s with
  | Ok _ => well_formed s = true
  | Exn _ => well_formed s = false
  end.
Proof.
  fix IH 1. intros [| u rest]; cbn; [reflexivity|].
  destruct (uri_unreserved u) eqn:Hu.
  - destruct (unreserved_not_surrogate u Hu) as [Hh Hl]. rewrite Hh, Hl.
    specialize (IH rest). destruct (encodeURIComponent rest); exact IH.
  - destruct (is_low_surrogate u); [reflexivity|].
    destruct (is_high_surrogate u).
    + destruct rest as [| lo rest']; [reflexivity|].
      destruct (is_low_surrogate lo); cbn; [| reflexivity].
      specialize (IH rest'). destruct (encodeURIComponent rest'); exact IH.
    + specialize (IH rest). destruct (encodeURIComponent rest); exact IH.
Qed.

Lemma enc_ok : forall s, well_formed s = true -> exists e, encodeURIComponent s = Ok e.
Proof.
  intros s H. pose proof (encodeURIComponent_well_formed s).
  destruct (encodeURIComponent s); [eauto | congruence].
Qed.

Lemma enc_exn : forall s, well_formed s = false -> encodeURIComponent s = Exn URIError.
Proof.
  intros s H. pose proof (encodeURIComponent_well_formed s) as Hw.
  destruct (encodeURIComponent s) as [| e] eqn:E; [congruence|].
  rewrite (encodeURIComponent_error s e E). reflexivity.
Qed.

(** X5 *)
(** A [PriceDBClient] call sends its request exactly when every identifier
    it puts in the path is well-formed UTF-16; when one has a lone
    surrogate, the call throws URIError before doing anything: no timer,
    no request, the state untouched. *)
Theorem sku_checked_before_request : forall call w s,
  (forallb well_formed (path_skus call) = true ->
   exists eo, PriceDBClient.request_of call = Ok eo /\
              PriceDBClient.run call w s = request (fst eo) (snd eo) w s) /\
  (forallb well_formed (path_skus call) = false ->
   PriceDBClient.run call w s = (Throw URIError, s)).
Proof.
  intros call w s. rewrite PriceDBClient_run_request.
  split; intros H.
  - destruct (PriceDBClient.request_of call) as [eo | e] eqn:E; [eauto|].
    exfalso. pose proof (PriceDBClient_request_of_error call e E) as ->.
    destruct call; cbn in H, E; try discriminate;
      unfold PriceDBClient.getItem_endpoint, PriceDBClient.getItemHistory_endpoint,
        PriceDBClient.getItemStats_endpoint, PriceDBClient.compareItems_endpoint in E;
      rewrite ?andb_true_r in H; rewrite ?andb_true_iff in H;
      repeat match goal with
             | H : _ /\ _ |- _ => destruct H
             | H : well_formed ?x = true |- _ =>
                 let e := fresh "e" in
                 destruct (enc_ok x H) as [e ?]; clear H
             end;
      repeat match goal with Hx : encodeURIComponent _ = Ok _ |- _ => rewrite Hx in E end;
      discriminate.
  - destruct call; cbn in H; try discriminate;
      cbn [PriceDBClient.request_of];
      unfold PriceDBClient.getItem_endpoint, PriceDBClient.getItemHistory_endpoint,
        PriceDBClient.getItemStats_endpoint, PriceDBClient.compareItems_endpoint;
      rewrite ?andb_true_r in H.
    + rewrite (enc_exn _ H). reflexivity.
    + rewrite (enc_exn _ H). reflexivity.
    + rewrite (enc_exn _ H). reflexivity.
    + apply andb_false_iff in H as [H | H].
      * rewrite (enc_exn _ H). reflexivity.
      * destruct (encodeURIComponent sku1) eqn:E1;
          [| rewrite (encodeURIComponent_error _ _ E1); reflexivity].
        rewrite (enc_exn _ H). reflexivity.
Qed.

Lemma sku_checked_before_request_witness :
  let s := initial_rt (new_PriceDBClient empty_config) in
  PriceDBClient.run (PriceDBClient.CompareItems (lit "5021;6") [56320]) silent_server s
  = (Throw URIError, s).
Proof.
  intros s. apply (sku_checked_before_request _ silent_server s). vm_compute. reflexivity.
Defined.

(** ** The headers each request carries *)

Lemma obj_set_fresh : forall o k v, ~ In k (map fst o) -> obj_set o k v = o ++ [(k, v)].
Proof.
  induction o as [| [k0 v0] o IH]; cbn; intros k v Hn; [reflexivity|].
  destruct (jstr_eqb_spec k k0); [subst; tauto|]. rewrite IH by tauto. reflexivity.
Qed.

Lemma obj_set_keys : forall o k v x,
  In x (map fst (obj_set o k v)) -> x = k \/ In x (map fst o).
Proof.
  induction o as [| [k0 v0] o IH]; cbn; intros k v x H.
  - destruct H as [<- | []]. left. reflexivity.
  - destruct (jstr_eqb_spec k k0) as [-> | Hne]; cbn in H.
    + destruct H as [<- | H]; [left; reflexivity | right; right; exact H].
    + destruct H as [<- | H]; [right; left; reflexivity|].
      destruct (IH k v x H); [left | right; right]; assumption.
Qed.

Lemma obj_set_nodup : forall o k v, NoDup (map fst o) -> NoDup (map fst (obj_set o k v)).
Proof.
  induction o as [| [k0 v0] o IH]; cbn; intros k v Hnd.
  - constructor; [intros [] | constructor].
  - inversion Hnd as [| ? ? Hn Hnd']; subst.
    destruct (jstr_eqb_spec k k0) as [-> | Hne]; cbn.
    + constructor; assumption.
    + constructor; [| apply IH; exact Hnd'].
      intros Hin. destruct (obj_set_keys o k v k0 Hin); [congruence | contradiction].
Qed.

Lemma spread_nodup : forall H acc,
  NoDup (map fst acc) -> NoDup (map fst (fold_left set_member H acc)).
Proof.
  induction H as [| kv H IH]; cbn; intros acc Hnd; [exact Hnd|].
  apply IH. apply obj_set_nodup. exact Hnd.
Qed.

Lemma spread_fresh_all : forall H acc,
  NoDup (map fst (acc ++ H)) -> fold_left set_member H acc = acc ++ H.
Proof.
  induction H as [| [k v] H IH]; intros acc Hnd; cbn; [rewrite app_nil_r; reflexivity|].
  unfold set_member at 2. cbn [fst snd]. rewrite obj_set_fresh.
  - rewrite IH; [rewrite <- app_assoc; reflexivity|]. rewrite <- app_assoc. exact Hnd.
  - rewrite map_app in Hnd. apply NoDup_remove_2 in Hnd.
    intros Hin. apply Hnd. apply in_or_app. left. exact Hin.
Qed.

Lemma construct_headers : forall default_base cfg,
  headers (construct default_base cfg)
  = match cfg_headers cfg with
    | Some H => fold_left set_member H content_type_default
    | None => content_type_default
    end.
Proof. intros default_base cfg. cbn. destruct (cfg_headers cfg); reflexivity. Qed.

Lemma PriceDBClient_request_of_headers : forall call eo,
  PriceDBClient.request_of call = Ok eo -> ri_headers (snd eo) = None.
Proof.
  intros call eo H.
  destruct call; cbn in H;
    unfold PriceDBClient.getItem_endpoint, PriceDBClient.getItemHistory_endpoint,
      PriceDBClient.getItemStats_endpoint, PriceDBClient.compareItems_endpoint in H;
    repeat match goal with
           | H : context [encodeURIComponent ?x] |- _ =>
               destruct (encodeURIComponent x); cbn in H
           end;
    try discriminate; inversion H; reflexivity.
Qed.

Lemma SpellsClient_request_of_headers : forall call,
  ri_headers (snd (SpellsClient.request_of call)) = None.
Proof. intros []; reflexivity. Qed.

(** X6 *)
(** No method adds per-request headers: every request either class sends
    carries the instance's header map unchanged (its entries in their
    order), which binds [Content-Type] to [application/json] unless the
    constructor's [headers] bind [Content-Type] themselves, for a POST as
    well as for a GET. *)
Theorem requests_send_instance_headers : forall default_base cfg s,
  self s = construct default_base cfg ->
  (forall call w, exists new,
     log (snd (PriceDBClient.run call w s)) = log s ++ new /\
     forall u i, In (Fetch u i) new -> init_headers i = headers (self s)) /\
  (forall call w, exists new,
     log (snd (SpellsClient.run call w s)) = log s ++ new /\
     forall u i, In (Fetch u i) new -> init_headers i = headers (self s)) /\
  (obj_get (match cfg_headers cfg with Some H => H | None => [] end) (lit "Content-Type") = None ->
   obj_get (headers (self s)) (lit "Content-Type") = Some (lit "application/json")).
Proof.
  intros default_base cfg s Hself.
  assert (Hnd : NoDup (map fst (headers (self s)))).
  { rewrite Hself, construct_headers.
    destruct (cfg_headers cfg) as [H|]; [apply spread_nodup|];
      repeat constructor; intros []. }
  assert (Hsp : spread_into (spread_into [] (Some (headers (self s)))) None = headers (self s)).
  { cbn. exact (spread_fresh_all (headers (self s)) [] Hnd). }
  split; [| split].
  - intros call w. destruct (PriceDBClient_run_frame call w s) as (_ & new & Hlog & Hf).
    exists new. split; [exact Hlog|]. intros u i Hin. specialize (Hf u i Hin).
    unfold PriceDBClient_issued in Hf.
    destruct (PriceDBClient.request_of call) as [eo |] eqn:E; cbn in Hf; [|discriminate].
    pose proof (PriceDBClient_request_of_headers call eo E) as Hh.
    unfold fetch_args in Hf. rewrite Hh in Hf.
    injection Hf as _ _ _ Hi. rewrite <- Hi. exact Hsp.
  - intros call w. destruct (SpellsClient_run_frame call w s) as (_ & new & Hlog & Hf).
    exists new. split; [exact Hlog|]. intros u i Hin. specialize (Hf u i Hin).
    unfold SpellsClient_issued, fetch_args in Hf.
    rewrite SpellsClient_request_of_headers in Hf.
    injection Hf as _ _ _ Hi. rewrite <- Hi. exact Hsp.
  - intros Hct. rewrite Hself, construct_headers.
    destruct (cfg_headers cfg) as [H|]; [| reflexivity].
    rewrite spread_untouched by (apply obj_get_none; exact Hct). reflexivity.
Qed.

Lemma requests_send_instance_headers_witness :
  let cfg := mk_config None None (Some [(lit "Authorization", lit "Bearer t")]) in
  obj_get (headers (self (initial_rt (new_SpellsClient cfg)))) (lit "Content-Type")
  = Some (lit "application/json").
Proof.
  intros cfg.
  destruct (requests_send_instance_headers (lit "https://spell.pricedb.io") cfg
              (initial_rt (new_SpellsClient cfg)) eq_refl) as (_ & _ & H).
  apply H. vm_compute. reflexivity.
Defined.

(** ** Query strings: what [URLSearchParams] makes of a value

    As for path segments, a decoder of the form encoding ([+], percent
    escapes, UTF-8, UTF-16) is a left inverse of [form_urlencode] on
    well-formed strings. *)

(** The characters of a form-encoded value: those [form_byte] keeps,
    [+] and the characters of percent escapes. *)
Definition query_char (u : Z) : bool :=
  (((65 <=? u) && (u <=? 90)) || ((97 <=? u) && (u <=? 122))
   || ((48 <=? u) && (u <=? 57)) || existsb (Z.eqb u) [42; 45; 46; 95])
  || (u =? 43) || (u =? 37).

Lemma form_byte_alphabet : forall b, 0 <= b < 256 ->
  Forall (fun u => query_char u = true) (form_byte b).
Proof.
  intros b Hb. unfold form_byte.
  destruct (Z.eqb_spec b 32) as [_ | Hne32]; [repeat constructor|].
  destruct (((65 <=? b) && (b <=? 90)) || ((97 <=? b) && (b <=? 122))
            || ((48 <=? b) && (b <=? 57)) || existsb (Z.eqb b) [42; 45; 46; 95]) eqn:Hk.
  - constructor; [| constructor]. unfold query_char. rewrite Hk. reflexivity.
  - assert (Hd : forall n, 0 <= n < 16 -> query_char (hex_digit n) = true).
    { intros n Hn. unfold query_char, hex_digit.
      destruct (Z.ltb_spec n 10).
      - rewrite (proj2 (Z.leb_le 48 (48 + n))), (proj2 (Z.leb_le (48 + n) 57)) by lia.
        cbn [andb]. rewrite !orb_true_r. reflexivity.
      - rewrite (proj2 (Z.leb_le 65 (55 + n))), (proj2 (Z.leb_le (55 + n) 90)) by lia.
        reflexivity. }
    unfold pct_byte. repeat constructor; apply Hd; zsolve.
Qed.

Lemma to_code_points_range : forall s, valid_jstr s ->
  Forall (fun cp => 0 <= cp < 1114112) (to_code_points s).
Proof.
  fix IH 1. intros [| u rest] Hv; cbn; [constructor|].
  pose proof (Forall_inv Hv) as Hu. pose proof (Forall_inv_tail Hv) as Hrest. cbn in Hu.
  pose proof (IH rest Hrest) as IHrest.
  destruct (is_high_surrogate u) eqn:Hh.
  - destruct rest as [| lo rest'].
    + repeat constructor; lia.
    + pose proof (Forall_inv_tail Hrest) as Hrest'.
      destruct (is_low_surrogate lo) eqn:Hl.
      * constructor; [pose proof (surrogate_pair_range u lo Hh Hl); lia | exact (IH rest' Hrest')].
      * constructor; [lia | exact IHrest].
  - destruct (is_low_surrogate u); (constructor; [lia | exact IHrest]).
Qed.

Lemma form_bytes_range : forall s, valid_jstr s ->
  Forall (fun b => 0 <= b < 256) (flat_map utf8_bytes (to_code_points s)).
Proof.
  intros s Hv. apply Forall_forall. intros b Hb.
  apply in_flat_map in Hb as (cp & Hcp & Hb).
  pose proof (to_code_points_range s Hv) as Hr. rewrite Forall_forall in Hr.
  pose proof (utf8_bytes_range cp (Hr cp Hcp)) as Hbr. rewrite Forall_forall in Hbr.
  exact (Hbr b Hb).
Qed.

Lemma form_urlencode_alphabet : forall s, valid_jstr s ->
  Forall (fun u => query_char u = true) (form_urlencode s).
Proof.
  intros s Hv. unfold form_urlencode.
  induction (form_bytes_range s Hv) as [| b bs Hb Hbs IH]; cbn [flat_map]; [constructor|].
  apply Forall_app. split; [apply form_byte_alphabet; exact Hb | exact IH].
Qed.

Lemma query_char_not_delimiter : forall u,
  query_char u = true -> u <> 38 /\ u <> 61 /\ u <> 35 /\ u <> 47 /\ u <> 63.
Proof. intros u Hu. repeat split; intros ->; discriminate. Qed.

Fixpoint unform (e : jstr) : list (Z + Z) :=
  match e with
  | [] => []
  | c :: rest =>
      if c =? 37 then
        match rest with
        | h :: l :: rest' => inr (hex_value h * 16 + hex_value l) :: unform rest'
        | _ => []
        end
      else if c =? 43 then inr 32 :: unform rest
      else inr c :: unform rest
  end.

Lemma unform_form_byte : forall b rest, 0 <= b < 256 ->
  unform (form_byte b ++ rest) = inr b :: unform rest.
Proof.
  intros b rest Hb. unfold form_byte.
  destruct (Z.eqb_spec b 32) as [-> | Hne]; [reflexivity|].
  destruct (((65 <=? b) && (b <=? 90)) || ((97 <=? b) && (b <=? 122))
            || ((48 <=? b) && (b <=? 57)) || existsb (Z.eqb b) [42; 45; 46; 95]) eqn:Hk.
  - cbn [app unform].
    assert (H37 : b <> 37 /\ b <> 43).
    { split; intros ->; discriminate. }
    rewrite (proj2 (Z.eqb_neq b 37)), (proj2 (Z.eqb_neq b 43)) by tauto. reflexivity.
  - unfold pct_byte. cbn [app unform Z.eqb Pos.eqb].
    rewrite !hex_value_digit by zsolve. f_equal. f_equal. zsolve.
Qed.

Lemma unform_bytes : forall bs, Forall (fun b => 0 <= b < 256) bs ->
  unform (flat_map form_byte bs) = map inr bs.
Proof.
  induction bs as [| b bs IH]; intros Hbs; [reflexivity|].
  inversion Hbs; subst. cbn [flat_map map].
  rewrite unform_form_byte by assumption. f_equal. apply IH. assumption.
Qed.

Lemma utf8_decode_code_points : forall cps,
  Forall (fun cp => 0 <= cp < 1114112) cps ->
  utf8_decode (map inr (flat_map utf8_bytes cps)) = flat_map to_utf16 cps.
Proof.
  induction cps as [| cp cps IH]; intros Hr; [reflexivity|].
  inversion Hr; subst. cbn [flat_map]. rewrite map_app, utf8_decode_bytes by assumption.
  f_equal. apply IH. assumption.
Qed.

Lemma code_points_utf16 : forall s, valid_jstr s -> well_formed s = true ->
  flat_map to_utf16 (to_code_points s) = s.
Proof.
  fix IH 1. intros [| u rest] Hv Hw; [reflexivity|].
  inversion Hv as [| ? ? Hu Hrest]; subst. cbn in Hw |- *.
  destruct (is_low_surrogate u) eqn:Hl; [discriminate|].
  destruct (is_high_surrogate u) eqn:Hh.
  - destruct rest as [| lo rest']; [discriminate|].
    apply andb_true_iff in Hw as [Hlo Hw].
    inversion Hrest as [| ? ? _ Hrest']; subst. rewrite Hlo. cbn [flat_map].
    rewrite to_utf16_pair by assumption. cbn [app]. rewrite IH; auto.
  - cbn [flat_map]. rewrite to_utf16_bmp by lia. cbn [app]. rewrite IH; auto.
Qed.

(** [form_urlencode] has a left inverse on well-formed strings. *)
Lemma decode_form_urlencode : forall s, valid_jstr s -> well_formed s = true ->
  utf8_decode (unform (form_urlencode s)) = s.
Proof.
  intros s Hv Hw. unfold form_urlencode.
  rewrite unform_bytes by (apply form_bytes_range; exact Hv).
  rewrite utf8_decode_code_points by (apply to_code_points_range; exact Hv).
  apply code_points_utf16; assumption.
Qed.

Lemma form_urlencode_injective : forall s1 s2,
  valid_jstr s1 -> well_formed s1 = true -> valid_jstr s2 -> well_formed s2 = true ->
  form_urlencode s1 = form_urlencode s2 -> s1 = s2.
Proof.
  intros s1 s2 Hv1 Hw1 Hv2 Hw2 E.
  rewrite <- (decode_form_urlencode s1 Hv1 Hw1), E.
  apply decode_form_urlencode; assumption.
Qed.

Lemma split_at_amp : forall a b c d,
  ~ In 38 a -> ~ In 38 c -> a ++ 38 :: b = c ++ 38 :: d -> a = c /\ b = d.
Proof.
  induction a as [| x a IH]; intros b [| y c] d Ha Hc E; cbn in *.
  - inversion E. split; reflexivity.
  - inversion E; subst. tauto.
  - inversion E; subst. tauto.
  - inversion E; subst. destruct (IH b c d) as [-> ->]; auto.
Qed.

Lemma form_no_amp : forall s, valid_jstr s -> ~ In 38 (form_urlencode s).
Proof.
  intros s Hv Hin. pose proof (form_urlencode_alphabet s Hv) as H.
  rewrite Forall_forall in H. destruct (query_char_not_delimiter 38 (H 38 Hin)) as [Hc _]. apply Hc. reflexivity.
Qed.

Lemma predict_layout : forall sp it,
  SpellsClient.predict_endpoint (SpellsClient.mk_predict sp it)
  = lit "/api/spell/predict?spells=" ++ form_urlencode sp ++ lit "&item=" ++ form_urlencode it.
Proof. reflexivity. Qed.

Lemma premium_layout : forall it ids,
  SpellsClient.getItemSpellPremium_endpoint (SpellsClient.mk_premium it ids)
  = lit "/api/spell/item-spell-premium?item=" ++ form_urlencode it
    ++ lit "&ids=" ++ form_urlencode ids.
Proof. reflexivity. Qed.

Lemma search_layout : forall q l,
  PriceDBClient.search_endpoint (PriceDBClient.mk_search q l)
  = lit "/api/search?q=" ++ form_urlencode q
    ++ (if truthy_num l then
          match l with
          | Some n => lit "&limit=" ++ form_urlencode (Number_toString n)
          | None => []
          end
        else []).
Proof.
  intros q [n|]; unfold PriceDBClient.search_endpoint, append_num_if;
    cbn [truthy_num PriceDBClient.search_limit PriceDBClient.query].
  - destruct (truthy_number n); [|rewrite app_nil_r]; reflexivity.
  - rewrite app_nil_r. reflexivity.
Qed.

(** X7 *)
(** The query string of [predict], [getSpellValue], [getItemSpellPremium],
    [spellNameToId] and [search] is exactly [name=value] pairs in the order
    of the source, each value form-encoded; an encoded value contains no
    [&], [=], [#], [/] or [?], so no value can add a parameter, end the
    query or change the path. *)
Theorem query_values_cannot_add_parameters :
  (forall sp it, SpellsClient.predict_endpoint (SpellsClient.mk_predict sp it)
     = lit "/api/spell/predict?spells=" ++ form_urlencode sp ++ lit "&item=" ++ form_urlencode it) /\
  (forall ids, SpellsClient.getSpellValue_endpoint ids
     = lit "/api/spell/spell-value?ids=" ++ form_urlencode ids) /\
  (forall it ids, SpellsClient.getItemSpellPremium_endpoint (SpellsClient.mk_premium it ids)
     = lit "/api/spell/item-spell-premium?item=" ++ form_urlencode it
       ++ lit "&ids=" ++ form_urlencode ids) /\
  (forall name, SpellsClient.spellNameToId_endpoint name
     = lit "/api/spell/spell-name-to-id?name=" ++ form_urlencode name) /\
  (forall q l, PriceDBClient.search_endpoint (PriceDBClient.mk_search q l)
     = lit "/api/search?q=" ++ form_urlencode q
       ++ (if truthy_num l then
             match l with
             | Some n => lit "&limit=" ++ form_urlencode (Number_toString n)
             | None => []
             end
           else [])) /\
  (forall s, valid_jstr s ->
     Forall (fun u => u <> 38 /\ u <> 61 /\ u <> 35 /\ u <> 47 /\ u <> 63) (form_urlencode s)).
Proof.
  split; [exact predict_layout|]. split; [reflexivity|].
  split; [exact premium_layout|]. split; [reflexivity|].
  split; [exact search_layout|].
  intros s Hv. eapply Forall_impl; [| exact (form_urlencode_alphabet s Hv)].
  exact query_char_not_delimiter.
Qed.

(** A well-formed JavaScript string. *)
Definition usv (s : jstr) : Prop := valid_jstr s /\ well_formed s = true.

(** X8 *)
(** The query parameters of the spells endpoints read back: decoding a
    form-encoded well-formed string gives the string; so distinct
    well-formed arguments of [predict], [getItemSpellPremium],
    [spellNameToId] and [getSpellValue] give distinct request URLs. *)
Theorem spells_query_values_read_back :
  (forall s, usv s -> utf8_decode (unform (form_urlencode s)) = s) /\
  (forall o1 o2,
     usv (SpellsClient.spells o1) -> usv (SpellsClient.item o1) ->
     usv (SpellsClient.spells o2) -> usv (SpellsClient.item o2) ->
     SpellsClient.predict_endpoint o1 = SpellsClient.predict_endpoint o2 -> o1 = o2) /\
  (forall o1 o2,
     usv (SpellsClient.premium_item o1) -> usv (SpellsClient.premium_ids o1) ->
     usv (SpellsClient.premium_item o2) -> usv (SpellsClient.premium_ids o2) ->
     SpellsClient.getItemSpellPremium_endpoint o1 = SpellsClient.getItemSpellPremium_endpoint o2 ->
     o1 = o2) /\
  (forall a b, usv a -> usv b ->
     SpellsClient.spellNameToId_endpoint a = SpellsClient.spellNameToId_endpoint b -> a = b) /\
  (forall a b, usv a -> usv b ->
     SpellsClient.getSpellValue_endpoint a = SpellsClient.getSpellValue_endpoint b -> a = b).
Proof.
  assert (Hinj : forall a b, usv a -> usv b -> form_urlencode a = form_urlencode b -> a = b)
    by (intros a b [Hva Hwa] [Hvb Hwb]; apply form_urlencode_injective; assumption).
  assert (Hpair : forall p1 p2 a1 b1 a2 b2, usv a1 -> usv b1 -> usv a2 -> usv b2 ->
            form_urlencode a1 ++ 38 :: p1 ++ form_urlencode b1
            = form_urlencode a2 ++ 38 :: p2 ++ form_urlencode b2 ->
            p1 = p2 -> a1 = a2 /\ b1 = b2).
  { intros p1 p2 a1 b1 a2 b2 Ha1 Hb1 Ha2 Hb2 E <-.
    apply split_at_amp in E as [E1 E2];
      [| apply form_no_amp, Ha1 | apply form_no_amp, Ha2].
    apply app_inv_head in E2. split; apply Hinj; assumption. }
  split; [intros s [Hv Hw]; apply decode_form_urlencode; assumption|].
  split; [| split; [| split]].
  - intros [sp1 it1] [sp2 it2] H1 H2 H3 H4 E.
    cbn [SpellsClient.spells SpellsClient.item] in H1, H2, H3, H4.
    rewrite !predict_layout in E. apply app_inv_head in E.
    change (lit "&item=") with (38 :: lit "item=") in E. rewrite <- !app_comm_cons in E.
    destruct (Hpair _ _ _ _ _ _ H1 H2 H3 H4 E eq_refl) as [-> ->]. reflexivity.
  - intros [it1 ids1] [it2 ids2] H1 H2 H3 H4 E.
    cbn [SpellsClient.premium_item SpellsClient.premium_ids] in H1, H2, H3, H4.
    rewrite !premium_layout in E. apply app_inv_head in E.
    change (lit "&ids=") with (38 :: lit "ids=") in E. rewrite <- !app_comm_cons in E.
    destruct (Hpair _ _ _ _ _ _ H1 H2 H3 H4 E eq_refl) as [-> ->]. reflexivity.
  - intros a b Ha Hb E. apply Hinj; [exact Ha | exact Hb|].
    assert (E' : lit "/api/spell/spell-name-to-id?name=" ++ form_urlencode a
                 = lit "/api/spell/spell-name-to-id?name=" ++ form_urlencode b) by exact E.
    exact (app_inv_head _ _ _ E').
  - intros a b Ha Hb E. apply Hinj; [exact Ha | exact Hb|].
    assert (E' : lit "/api/spell/spell-value?ids=" ++ form_urlencode a
                 = lit "/api/spell/spell-value?ids=" ++ form_urlencode b) by exact E.
    exact (app_inv_head _ _ _ E').
Qed.

Lemma usv_of : forall s, valid_jstrb s = true -> well_formed s = true -> usv s.
Proof. intros s H1 H2. split; [apply valid_jstrb_ok|]; assumption. Qed.

Lemma spells_query_values_read_back_witness :
  utf8_decode (unform (form_urlencode (lit "Exorcism & Co=1?"))) = lit "Exorcism & Co=1?".
Proof.
  destruct spells_query_values_read_back as [H _].
  apply H, usv_of; vm_compute; reflexivity.
Defined.

Lemma high_not_low : forall u, is_high_surrogate u = true -> is_low_surrogate u = false.
Proof.
  intros u H. unfold is_high_surrogate, is_low_surrogate in *.
  apply andb_true_iff in H as [_ H]. apply Z.leb_le in H.
  apply andb_false_iff. left. apply Z.leb_gt. lia.
Qed.

Lemma low_not_high : forall u, is_low_surrogate u = true -> is_high_surrogate u = false.
Proof.
  intros u H. unfold is_high_surrogate, is_low_surrogate in *.
  apply andb_true_iff in H as [H _]. apply Z.leb_le in H.
  apply andb_false_iff. right. apply Z.leb_gt. lia.
Qed.

(** Splitting a string where it does not cut a surrogate pair. *)
Lemma to_code_points_app : forall p r,
  is_high_surrogate (last p 0) = false \/ is_low_surrogate (hd 0 r) = false ->
  to_code_points (p ++ r) = to_code_points p ++ to_code_points r.
Proof.
  fix IH 1. intros [| u p'] r H; [reflexivity|].
  cbn [app to_code_points].
  destruct (is_high_surrogate u) eqn:Hh.
  - destruct p' as [| lo p''] eqn:Ep'.
    + cbn [last] in H. destruct H as [H | H]; [congruence|].
      destruct r as [| lo r']; [reflexivity|]. cbn [hd] in H. cbn -[is_low_surrogate is_high_surrogate]. rewrite H. reflexivity.
    + cbn [app]. destruct (is_low_surrogate lo) eqn:Hl.
      * rewrite IH; [reflexivity|].
        destruct p'' as [| x xs]; [left; reflexivity | exact H].
      * change (lo :: p'' ++ r) with ((lo :: p'') ++ r). rewrite <- Ep'.
        rewrite IH; [subst p'; reflexivity|].
        rewrite Ep'. exact H.
  - assert (Hp : is_high_surrogate (last p' 0) = false \/ is_low_surrogate (hd 0 r) = false).
    { destruct p'; [left; reflexivity | exact H]. }
    destruct (is_low_surrogate u); rewrite IH by exact Hp; reflexivity.
Qed.

Lemma lone_surrogate_code_points : forall p u q,
  (is_low_surrogate u = true /\ is_high_surrogate (last p 0) = false) \/
  (is_high_surrogate u = true /\ is_low_surrogate (hd 0 q) = false) ->
  to_code_points (p ++ u :: q) = to_code_points (p ++ 65533 :: q).
Proof.
  intros p u q Hu.
  rewrite (to_code_points_app p (65533 :: q)) by (right; reflexivity).
  destruct Hu as [[Hl Hp] | [Hh Hq]].
  - rewrite (to_code_points_app p (u :: q)) by (left; exact Hp).
    cbn [to_code_points]. rewrite (low_not_high u Hl), Hl. reflexivity.
  - rewrite (to_code_points_app p (u :: q)) by (right; exact (high_not_low u Hh)).
    cbn [to_code_points]. rewrite Hh. destruct q as [| lo q']; [reflexivity|].
    cbn [hd] in Hq. rewrite Hq. reflexivity.
Qed.

(** X9 *)
(** A value passed in a query string is converted to a USV string instead
    of raising: a lone surrogate (a low surrogate not preceded by a high
    one, or a high surrogate not followed by a low one) is sent as U+FFFD,
    so the request goes out, and it is the request sent for the string
    with U+FFFD in that place. This holds for every query value of the
    spells client: [spellNameToId]'s name, [getSpellValue]'s ids,
    [predict]'s spells and item, and [getItemSpellPremium]'s item and ids. *)
Theorem lone_surrogate_sent_as_replacement : forall p u q,
  (is_low_surrogate u = true /\ is_high_surrogate (last p 0) = false) \/
  (is_high_surrogate u = true /\ is_low_surrogate (hd 0 q) = false) ->
  form_urlencode (p ++ u :: q) = form_urlencode (p ++ 65533 :: q) /\
  SpellsClient.spellNameToId_endpoint (p ++ u :: q)
  = SpellsClient.spellNameToId_endpoint (p ++ 65533 :: q) /\
  SpellsClient.getSpellValue_endpoint (p ++ u :: q)
  = SpellsClient.getSpellValue_endpoint (p ++ 65533 :: q) /\
  (forall it, SpellsClient.predict_endpoint (SpellsClient.mk_predict (p ++ u :: q) it)
              = SpellsClient.predict_endpoint (SpellsClient.mk_predict (p ++ 65533 :: q) it)) /\
  (forall sp, SpellsClient.predict_endpoint (SpellsClient.mk_predict sp (p ++ u :: q))
              = SpellsClient.predict_endpoint (SpellsClient.mk_predict sp (p ++ 65533 :: q))) /\
  (forall ids, SpellsClient.getItemSpellPremium_endpoint (SpellsClient.mk_premium (p ++ u :: q) ids)
               = SpellsClient.getItemSpellPremium_endpoint
                   (SpellsClient.mk_premium (p ++ 65533 :: q) ids)) /\
  (forall it, SpellsClient.getItemSpellPremium_endpoint (SpellsClient.mk_premium it (p ++ u :: q))
              = SpellsClient.getItemSpellPremium_endpoint
                  (SpellsClient.mk_premium it (p ++ 65533 :: q))).
Proof.
  intros p u q Hu.
  assert (E : form_urlencode (p ++ u :: q) = form_urlencode (p ++ 65533 :: q)).
  { unfold form_urlencode. rewrite (lone_surrogate_code_points p u q Hu). reflexivity. }
  split; [exact E|].
  split; [unfold SpellsClient.spellNameToId_endpoint; cbn -[form_urlencode]; rewrite E; reflexivity|].
  split; [unfold SpellsClient.getSpellValue_endpoint; cbn -[form_urlencode]; rewrite E; reflexivity|].
  split; [intros it; unfold SpellsClient.predict_endpoint; cbn -[form_urlencode]; rewrite E; reflexivity|].
  split; [intros sp; unfold SpellsClient.predict_endpoint; cbn -[form_urlencode]; rewrite E; reflexivity|].
  split; [intros ids; unfold SpellsClient.getItemSpellPremium_endpoint; cbn -[form_urlencode]; rewrite E; reflexivity|].
  intros it; unfold SpellsClient.getItemSpellPremium_endpoint; cbn -[form_urlencode]; rewrite E; reflexivity.
Qed.

Lemma lone_surrogate_sent_as_replacement_witness :
  SpellsClient.predict_endpoint (SpellsClient.mk_predict ([49; 55357] ++ 55357 :: lit "Ab") (lit "x"))
  = SpellsClient.predict_endpoint (SpellsClient.mk_predict ([49; 55357] ++ 65533 :: lit "Ab") (lit "x")).
Proof.
  apply (lone_surrogate_sent_as_replacement [49; 55357] 55357 (lit "Ab")).
  right. split; reflexivity.
Defined.

(** ** Numbers in URLs *)

Definition decimal_step (acc d : Z) : Z := acc * 10 + (d - 48).

(** Reading back [number_toString]: an optional minus sign, then decimal
    digits. *)
Definition number_value (s : jstr) : Z :=
  match s with
  | c :: ds => if c =? 45 then - decimal_value ds else decimal_value s
  | [] => 0
  end.

Lemma dec_digits_value : forall fuel n acc v, 0 <= n < 10 ^ Z.of_nat fuel ->
  exists k, 0 <= k /\
    fold_left decimal_step (dec_digits fuel n acc) v = fold_left decimal_step acc (v * 10 ^ k + n).
Proof.
  induction fuel as [| f IH]; intros n acc v Hn; cbn [dec_digits].
  - exists 0. split; [lia|]. cbn in Hn. f_equal. lia.
  - rewrite Nat2Z.inj_succ, Z.pow_succ_r in Hn by lia.
    destruct (Z.ltb_spec n 10).
    + exists 1. split; [lia|]. cbn [fold_left]. f_equal. unfold decimal_step.
      rewrite Z.mod_small by lia. lia.
    + destruct (IH (n / 10) ((48 + n mod 10) :: acc) v) as (k & Hk & E); [zsolve|].
      exists (Z.succ k). split; [lia|]. rewrite E. cbn [fold_left]. f_equal.
      unfold decimal_step. rewrite Z.pow_succ_r by lia.
      pose proof (Z.div_mod n 10). pose proof (Z.mod_pos_bound n 10). nia.
Qed.

Lemma dec_digits_alphabet : forall fuel n acc, 0 <= n ->
  Forall (fun u => 48 <= u <= 57) acc ->
  Forall (fun u => 48 <= u <= 57) (dec_digits fuel n acc).
Proof.
  induction fuel as [| f IH]; intros n acc Hn Hacc; cbn [dec_digits]; [exact Hacc|].
  assert (Hd : Forall (fun u => 48 <= u <= 57) ((48 + n mod 10) :: acc))
    by (constructor; [zsolve | exact Hacc]).
  destruct (n <? 10); [exact Hd|]. apply IH; [zsolve | exact Hd].
Qed.

Lemma dec_digits_nonempty : forall fuel n acc, (0 < fuel)%nat -> dec_digits fuel n acc <> [].
Proof.
  induction fuel as [| f IH]; intros n acc Hf; [lia|]. cbn [dec_digits].
  destruct (n <? 10); [discriminate|].
  destruct f; [discriminate | apply IH; lia].
Qed.

Lemma pos_size_bound : forall p, Z.pos p < 2 ^ Z.of_nat (Pos.size_nat p).
Proof.
  induction p as [p IH | p IH |].
  - cbn [Pos.size_nat]. rewrite Nat2Z.inj_succ, Z.pow_succ_r by lia.
    rewrite Pos2Z.inj_xI. lia.
  - cbn [Pos.size_nat]. rewrite Nat2Z.inj_succ, Z.pow_succ_r by lia.
    rewrite Pos2Z.inj_xO. lia.
  - reflexivity.
Qed.

Lemma digits_bound : forall p fuel, (Pos.size_nat p <= fuel)%nat ->
  Z.pos p < 10 ^ Z.of_nat fuel.
Proof.
  intros p fuel Hf. pose proof (pos_size_bound p).
  assert (2 ^ Z.of_nat (Pos.size_nat p) <= 10 ^ Z.of_nat (Pos.size_nat p))
    by (apply Z.pow_le_mono_l; lia).
  assert (10 ^ Z.of_nat (Pos.size_nat p) <= 10 ^ Z.of_nat fuel)
    by (apply Z.pow_le_mono_r; lia).
  lia.
Qed.

Lemma decimal_value_dec_digits : forall fuel n, 0 <= n < 10 ^ Z.of_nat fuel ->
  decimal_value (dec_digits fuel n []) = n.
Proof.
  intros fuel n Hn. destruct (dec_digits_value fuel n [] 0 Hn) as (k & _ & E).
  unfold decimal_value. change (fun acc d => acc * 10 + (d - 48)) with decimal_step.
  rewrite E. cbn. lia.
Qed.

Lemma number_value_toString : forall n, number_value (number_toString n) = n.
Proof.
  intros n. unfold number_toString. destruct (Z.ltb_spec n 0).
  - cbn [number_value Z.eqb Pos.eqb].
    rewrite decimal_value_dec_digits; [lia|].
    assert (Hp : Z.pos (Z.to_pos (- n)) < 10 ^ Z.of_nat (Pos.size_nat (Z.to_pos (- n))))
      by (apply digits_bound; lia).
    rewrite Z2Pos.id in Hp by lia. lia.
  - assert (Hb : 0 <= n < 10 ^ Z.of_nat (S (Pos.size_nat (Z.to_pos n)))).
    { split; [lia|]. destruct (Z.eq_dec n 0) as [-> | Hne]; [apply Z.pow_pos_nonneg; lia|].
      assert (Hp : Z.pos (Z.to_pos n) < 10 ^ Z.of_nat (S (Pos.size_nat (Z.to_pos n))))
        by (apply digits_bound; lia).
      rewrite Z2Pos.id in Hp by lia. exact Hp. }
    pose proof (dec_digits_alphabet (S (Pos.size_nat (Z.to_pos n))) n [] H (Forall_nil _)) as Ha.
    pose proof (decimal_value_dec_digits _ n Hb) as Hv.
    destruct (dec_digits (S (Pos.size_nat (Z.to_pos n))) n []) as [| c ds] eqn:E;
      [exfalso; exact (dec_digits_nonempty _ n [] (Nat.lt_0_succ _) E)|].
    cbn [number_value]. pose proof (Forall_inv Ha) as Hc. cbn in Hc.
    rewrite (proj2 (Z.eqb_neq c 45)) by lia. exact Hv.
Qed.


Lemma number_toString_alphabet : forall n,
  Forall (fun u => u = 45 \/ 48 <= u <= 57) (number_toString n).
Proof.
  intros n. unfold number_toString. destruct (Z.ltb_spec n 0).
  - constructor; [left; reflexivity|].
    eapply Forall_impl; [| apply dec_digits_alphabet; [lia | constructor]].
    intros; right; assumption.
  - eapply Forall_impl; [| apply dec_digits_alphabet; [lia | constructor]].
    intros; right; assumption.
Qed.

Lemma ascii_usv : forall s, Forall (fun u => 0 <= u < 128) s -> usv s.
Proof.
  induction s as [| u s IH]; intros H; [split; [constructor | reflexivity]|].
  inversion H as [| ? ? Hu Hs]; subst. destruct (IH Hs) as [Hv Hw].
  split; [constructor; [lia | exact Hv]|].
  cbn [well_formed]. unfold is_low_surrogate, is_high_surrogate.
  rewrite (proj2 (Z.leb_gt 56320 u)), (proj2 (Z.leb_gt 55296 u)) by lia. exact Hw.
Qed.

Lemma number_toString_injective : forall m n, number_toString m = number_toString n -> m = n.
Proof.
  intros m n E. rewrite <- (number_value_toString m), <- (number_value_toString n), E.
  reflexivity.
Qed.

Lemma number_toString_not_word : forall a w, In 73 w \/ In 78 w -> number_toString a <> w.
Proof.
  intros a w Hw E. subst w. pose proof (number_toString_alphabet a) as H.
  rewrite Forall_forall in H. destruct Hw as [Hi | Hi]; apply H in Hi; lia.
Qed.

Lemma Number_toString_injective : forall x y, Number_toString x = Number_toString y -> x = y.
Proof.
  intros [a| | |] [b| | |] E; cbn [Number_toString] in E; try reflexivity; try discriminate;
    first [ f_equal; apply number_toString_injective; exact E
          | exfalso; eapply number_toString_not_word; [| exact E]; cbn; auto 20
          | exfalso; eapply number_toString_not_word; [| symmetry; exact E]; cbn; auto 20 ].
Qed.

Lemma Number_toString_alphabet : forall x,
  Forall (fun u => u = 45 \/ 48 <= u <= 57 \/ 65 <= u <= 90 \/ 97 <= u <= 122) (Number_toString x).
Proof.
  intros [n| | |]; cbn [Number_toString].
  - eapply Forall_impl; [| apply number_toString_alphabet]. intros u [-> | Hu]; auto.
  - apply Forall_forall; cbn; intros u Hu; repeat destruct Hu as [<- | Hu]; lia.
  - apply Forall_forall; cbn; intros u Hu; repeat destruct Hu as [<- | Hu]; lia.
  - apply Forall_forall; cbn; intros u Hu; repeat destruct Hu as [<- | Hu]; lia.
Qed.

Lemma Number_usv : forall x, usv (Number_toString x).
Proof.
  intros x. apply ascii_usv. eapply Forall_impl; [| apply Number_toString_alphabet].
  intros u [-> | [Hu | [Hu | Hu]]]; lia.
Qed.

(** A number whose integral value, if any, is a safe integer. *)
Definition safe_number (x : number) : Prop :=
  match x with Num n => safe_integer n | _ => True end.


(** X10 *)
(** A number in a URL ([getSnapshot]'s timestamp in the path,
    [spellIdToName]'s id in the query, the numeric options) is written,
    for a safe integer, as an optional [-] and decimal digits that read
    back to it, and otherwise as [NaN], [Infinity] or [-Infinity]; so it
    cannot add a path segment or a parameter, and distinct safe integers
    or non-finite numbers give distinct request URLs. *)
Theorem numbers_in_urls_read_back :
  (forall n, safe_integer n ->
     number_value (Number_toString (Num n)) = n /\
     Forall (fun u => u = 45 \/ 48 <= u <= 57) (Number_toString (Num n))) /\
  (forall x, safe_number x ->
     Forall (fun u => u = 45 \/ 48 <= u <= 57 \/ 65 <= u <= 90 \/ 97 <= u <= 122) (Number_toString x)) /\
  (forall t1 t2, safe_number t1 -> safe_number t2 ->
     PriceDBClient.request_of (PriceDBClient.GetSnapshot t1)
     = PriceDBClient.request_of (PriceDBClient.GetSnapshot t2) -> t1 = t2) /\
  (forall id1 id2, safe_number id1 -> safe_number id2 ->
     SpellsClient.spellIdToName_endpoint id1 = SpellsClient.spellIdToName_endpoint id2 ->
     id1 = id2).
Proof.
  split; [intros n _; split; [exact (number_value_toString n) | exact (number_toString_alphabet n)]|].
  split; [intros x _; exact (Number_toString_alphabet x)|].
  split.
  - intros t1 t2 _ _ E. cbn [PriceDBClient.request_of] in E. injection E as E.
    exact (Number_toString_injective t1 t2 E).
  - intros a b _ _ E.
    assert (E' : lit "/api/spell/spell-id-to-name?id=" ++ form_urlencode (Number_toString a)
                 = lit "/api/spell/spell-id-to-name?id=" ++ form_urlencode (Number_toString b))
      by exact E.
    apply app_inv_head in E'.
    apply Number_toString_injective. destruct (Number_usv a) as [Hva Hwa].
    destruct (Number_usv b) as [Hvb Hwb].
    apply form_urlencode_injective; assumption.
Qed.

(** ** JSON bodies *)

Definition lower_hex_value (c : Z) : Z := if c <=? 57 then c - 48 else c - 87.

(** The code unit of a two-character escape [\x]. *)
Definition unescape_char (d : Z) : Z :=
  if d =? 98 then 8 else if d =? 116 then 9 else if d =? 110 then 10
  else if d =? 102 then 12 else if d =? 114 then 13 else d.

Definition prepend (c : Z) (p : jstr * jstr) : jstr * jstr := (c :: fst p, snd p).

(** Reads the contents of a JSON string literal up to its closing quote;
    returns them unescaped, with the text after the quote. *)
Fixpoint read_json_string (e : jstr) : option (jstr * jstr) :=
  match e with
  | [] => None
  | c :: rest =>
      if c =? 34 then Some ([], rest)
      else if c =? 92 then
        match rest with
        | d :: rest' =>
            if d =? 117 then
              match rest' with
              | h1 :: h2 :: h3 :: h4 :: rest'' =>
                  option_map
                    (prepend (lower_hex_value h1 * 4096 + lower_hex_value h2 * 256
                              + lower_hex_value h3 * 16 + lower_hex_value h4))
                    (read_json_string rest'')
              | _ => None
              end
            else option_map (prepend (unescape_char d)) (read_json_string rest')
        | [] => None
        end
      else option_map (prepend c) (read_json_string rest)
  end.

Lemma lower_hex_value_digit : forall n, 0 <= n < 16 -> lower_hex_value (lower_hex_digit n) = n.
Proof.
  intros n Hn. unfold lower_hex_digit, lower_hex_value.
  destruct (Z.ltb_spec n 10).
  - rewrite (proj2 (Z.leb_le _ _)) by lia. lia.
  - rewrite (proj2 (Z.leb_gt _ _)) by lia. lia.
Qed.

Lemma read_unicode_escape : forall u tail, 0 <= u < 65536 ->
  read_json_string (unicode_escape u ++ tail) = option_map (prepend u) (read_json_string tail).
Proof.
  intros u tail Hu. unfold unicode_escape. cbn [app read_json_string Z.eqb Pos.eqb].
  rewrite !lower_hex_value_digit by zsolve. f_equal. f_equal. zsolve.
Qed.

Lemma read_escape_unit : forall u tail, 0 <= u < 65536 ->
  read_json_string (escape_unit u ++ tail) = option_map (prepend u) (read_json_string tail).
Proof.
  intros u tail Hu. unfold escape_unit.
  destruct (Z.eqb_spec u 8) as [-> | H8]; [reflexivity|].
  destruct (Z.eqb_spec u 9) as [-> | H9]; [reflexivity|].
  destruct (Z.eqb_spec u 10) as [-> | H10]; [reflexivity|].
  destruct (Z.eqb_spec u 12) as [-> | H12]; [reflexivity|].
  destruct (Z.eqb_spec u 13) as [-> | H13]; [reflexivity|].
  destruct (Z.eqb_spec u 34) as [-> | H34]; [reflexivity|].
  destruct (Z.eqb_spec u 92) as [-> | H92]; [reflexivity|].
  destruct (Z.ltb_spec u 32); [apply read_unicode_escape; lia|].
  cbn [app read_json_string].
  rewrite (proj2 (Z.eqb_neq u 34)), (proj2 (Z.eqb_neq u 92)) by assumption. reflexivity.
Qed.

Lemma surrogate_not_special : forall u,
  is_high_surrogate u = true \/ is_low_surrogate u = true -> (u =? 34) = false /\ (u =? 92) = false.
Proof.
  intros u H. unfold is_high_surrogate, is_low_surrogate in H.
  assert (55296 <= u) by (destruct H as [H | H]; apply andb_true_iff in H as [H _];
                          apply Z.leb_le in H; lia).
  split; apply Z.eqb_neq; lia.
Qed.

(** [QuoteJSONString] reads back: every string, including one with quotes,
    backslashes, control characters or lone surrogates. *)
Lemma read_quote_units : forall s rest, valid_jstr s ->
  read_json_string (quote_units s ++ 34 :: rest) = Some (s, rest).
Proof.
  fix IH 1. intros [| u s'] rest Hv; [reflexivity|].
  pose proof (Forall_inv Hv) as Hu. pose proof (Forall_inv_tail Hv) as Hs'. cbn in Hu.
  cbn [quote_units].
  destruct (is_high_surrogate u) eqn:Hh.
  - destruct s' as [| lo s''] eqn:Es.
    + rewrite read_unicode_escape by lia. reflexivity.
    + destruct (is_low_surrogate lo) eqn:Hl.
      * pose proof (Forall_inv_tail Hs') as Hs''.
        destruct (surrogate_not_special u (or_introl Hh)) as [Hu34 Hu92].
        destruct (surrogate_not_special lo (or_intror Hl)) as [Hl34 Hl92].
        cbn [app read_json_string]. rewrite Hu34, Hu92, Hl34, Hl92.
        rewrite IH by exact Hs''. reflexivity.
      * rewrite <- app_assoc, read_unicode_escape by lia. rewrite <- Es.
        rewrite IH by (rewrite Es; exact Hs'). reflexivity.
  - destruct (is_low_surrogate u) eqn:Hl.
    + rewrite <- app_assoc, read_unicode_escape by lia.
      rewrite IH by exact Hs'. reflexivity.
    + rewrite <- app_assoc, read_escape_unit by lia.
      rewrite IH by exact Hs'. reflexivity.
Qed.

Lemma quoted_prefix : forall x y r1 r2, valid_jstr x -> valid_jstr y ->
  quote_units x ++ 34 :: r1 = quote_units y ++ 34 :: r2 -> x = y /\ r1 = r2.
Proof.
  intros x y r1 r2 Hx Hy E.
  pose proof (read_quote_units x r1 Hx) as H1. rewrite E, read_quote_units in H1 by exact Hy.
  injection H1 as -> ->. split; reflexivity.
Qed.

(** The elements of a JSON array of strings, as [JSON.stringify] writes
    them. *)
Definition string_elements (xs : list jstr) : jstr :=
  join_with [44] (map JSON_stringify (map JStr xs)).

Lemma string_elements_cons : forall x xs t,
  string_elements (x :: xs) ++ 93 :: t
  = 34 :: quote_units x ++ 34 :: match xs with
                                 | [] => 93 :: t
                                 | _ => 44 :: string_elements xs ++ 93 :: t
                                 end.
Proof.
  intros x [| x' xs] t; unfold string_elements; cbn [map join_with JSON_stringify]; unfold QuoteJSONString;
    rewrite <- ?app_assoc; reflexivity.
Qed.

Lemma string_elements_injective : forall xs ys t1 t2,
  Forall valid_jstr xs -> Forall valid_jstr ys ->
  string_elements xs ++ 93 :: t1 = string_elements ys ++ 93 :: t2 -> xs = ys /\ t1 = t2.
Proof.
  induction xs as [| x xs IH]; intros [| y ys] t1 t2 Hx Hy E.
  - injection E as ->. split; reflexivity.
  - rewrite string_elements_cons in E. discriminate.
  - rewrite string_elements_cons in E. discriminate.
  - rewrite !string_elements_cons in E. injection E as E.
    pose proof (Forall_inv Hx) as Hx0. pose proof (Forall_inv Hy) as Hy0.
    apply quoted_prefix in E as [-> E]; [| exact Hx0 | exact Hy0].
    destruct xs as [| x' xs'], ys as [| y' ys']; try discriminate.
    + injection E as ->. split; reflexivity.
    + injection E as E.
      destruct (IH (y' :: ys') t1 t2 (Forall_inv_tail Hx) (Forall_inv_tail Hy) E) as [-> ->].
      split; reflexivity.
Qed.

Lemma getItemsBulk_body : forall skus,
  ri_body (PriceDBClient.getItemsBulk_init skus)
  = Some ([123; 34] ++ lit "skus" ++ [34; 58; 91] ++ string_elements skus ++ [93; 125]).
Proof.
  intros skus. unfold string_elements.
  cbn [PriceDBClient.getItemsBulk_init ri_body JSON_stringify map join_with].
  unfold QuoteJSONString. cbn [fst snd JSON_stringify].
  replace (quote_units (lit "skus")) with (lit "skus") by reflexivity.
  rewrite <- ?app_assoc. reflexivity.
Qed.

(** X11 *)
(** [JSON.stringify]'s string escaping reads back, for every string
    (quotes, backslashes, control characters and lone surrogates included),
    so the body [getItemsBulk] posts determines the sku list: no sku can end
    its string early or add array elements, and distinct lists give
    distinct bodies. *)
Theorem getItemsBulk_body_reads_back :
  (forall s rest, valid_jstr s -> read_json_string (quote_units s ++ 34 :: rest) = Some (s, rest)) /\
  (forall skus1 skus2, Forall valid_jstr skus1 -> Forall valid_jstr skus2 ->
     ri_body (PriceDBClient.getItemsBulk_init skus1)
     = ri_body (PriceDBClient.getItemsBulk_init skus2) -> skus1 = skus2).
Proof.
  split; [exact read_quote_units|].
  intros skus1 skus2 H1 H2 E. rewrite !getItemsBulk_body in E. injection E as E.
  exact (proj1 (string_elements_injective skus1 skus2 [125] [125] H1 H2 E)).
Qed.

Lemma getItemsBulk_body_reads_back_witness :
  read_json_string (quote_units [34; 92; 10; 55296; 97] ++ 34 :: [44])
  = Some ([34; 92; 10; 55296; 97], [44]).
Proof.
  destruct getItemsBulk_body_reads_back as [H _]. apply H.
  apply valid_jstrb_ok. reflexivity.
Defined.

(** ** Query strings that read back *)

Lemma split_at_char : forall (c : Z) (a b a' b' : jstr),
  ~ In c a -> ~ In c a' -> a ++ c :: b = a' ++ c :: b' -> a = a' /\ b = b'.
Proof.
  intros c. induction a as [| x a IH]; intros b [| y a'] b' Ha Ha' E; cbn in *.
  - inversion E. split; reflexivity.
  - inversion E; subst. tauto.
  - inversion E; subst. tauto.
  - inversion E; subst. destruct (IH b a' b') as [-> ->]; auto.
Qed.

(** A text without [c] followed by nothing or by [c] and more. *)
Definition ends_or_starts_with (c : Z) (t : jstr) : Prop := t = [] \/ exists r, t = c :: r.

Lemma split_before_char : forall (c : Z) (a t a' t' : jstr),
  ~ In c a -> ~ In c a' -> ends_or_starts_with c t -> ends_or_starts_with c t' ->
  a ++ t = a' ++ t' -> a = a' /\ t = t'.
Proof.
  intros c. induction a as [| x a IH]; intros t [| y a'] t' Ha Ha' Ht Ht' E; cbn in *.
  - split; [reflexivity | exact E].
  - exfalso. destruct Ht as [-> | [r ->]]; [discriminate|].
    injection E as <- _. tauto.
  - exfalso. destruct Ht' as [-> | [r ->]]; [discriminate|].
    injection E as -> _. tauto.
  - injection E as -> E. destruct (IH t a' t') as [-> ->]; auto.
Qed.

Lemma form_avoids : forall s c, valid_jstr s -> query_char c = false -> ~ In c (form_urlencode s).
Proof.
  intros s c Hv Hc Hin. pose proof (form_urlencode_alphabet s Hv) as H.
  rewrite Forall_forall in H. rewrite (H c Hin) in Hc. discriminate.
Qed.

Definition pair_text (kv : jstr * jstr) : jstr :=
  form_urlencode (fst kv) ++ [61] ++ form_urlencode (snd kv).

Lemma params_toString_cons : forall kv rest,
  params_toString (kv :: rest)
  = pair_text kv ++ match rest with [] => [] | _ => 38 :: params_toString rest end.
Proof.
  intros [k v] [| [k' v'] rest]; unfold params_toString, pair_text; cbn [fst snd map join_with];
    [rewrite app_nil_r | rewrite <- ?app_assoc]; reflexivity.
Qed.

Definition pair_usv (kv : jstr * jstr) : Prop := usv (fst kv) /\ usv (snd kv).

Lemma params_toString_injective_aux : forall p1 p2,
  Forall pair_usv p1 -> Forall pair_usv p2 -> params_toString p1 = params_toString p2 -> p1 = p2.
Proof.
  induction p1 as [| kv p1 IH]; intros [| kv' p2] H1 H2 E.
  - reflexivity.
  - exfalso. rewrite params_toString_cons in E. unfold pair_text in E.
    rewrite <- app_assoc in E. destruct (form_urlencode (fst kv')); discriminate.
  - exfalso. rewrite params_toString_cons in E. unfold pair_text in E.
    rewrite <- app_assoc in E. destruct (form_urlencode (fst kv)); discriminate.
  - rewrite !params_toString_cons in E. unfold pair_text in E. rewrite <- !app_assoc in E.
    destruct (Forall_inv H1) as [[Hk1 Wk1] [Hv1 Wv1]].
    destruct (Forall_inv H2) as [[Hk2 Wk2] [Hv2 Wv2]].
    apply split_at_char in E as [Ek E];
      [| apply form_avoids; [exact Hk1 | reflexivity] | apply form_avoids; [exact Hk2 | reflexivity]].
    apply (split_before_char 38) in E as [Ev Et];
      [| apply form_avoids; [exact Hv1 | reflexivity] | apply form_avoids; [exact Hv2 | reflexivity]
       | destruct p1; [left | right; eexists]; reflexivity
       | destruct p2; [left | right; eexists]; reflexivity].
    apply form_urlencode_injective in Ek; [| assumption ..].
    apply form_urlencode_injective in Ev; [| assumption ..].
    destruct kv as [k v], kv' as [k' v']; cbn [fst snd] in Ek, Ev; subst k' v'.
    destruct p1 as [| x1 p1'], p2 as [| x2 p2']; try discriminate; [reflexivity|].
    injection Et as Et. f_equal. apply IH; [exact (Forall_inv_tail H1) | exact (Forall_inv_tail H2) | exact Et].
Qed.

(** X13 *)
(** [URLSearchParams.prototype.toString] loses nothing: for names and
    values that are well-formed strings, two parameter lists serialize to
    the same query string only if they are the same list, in the same
    order. *)
Theorem params_toString_injective : forall p1 p2,
  Forall pair_usv p1 -> Forall pair_usv p2 -> params_toString p1 = params_toString p2 -> p1 = p2.
Proof. exact params_toString_injective_aux. Qed.

Lemma ascii_usv_check : forall s, forallb (fun u => (0 <=? u) && (u <? 128)) s = true -> usv s.
Proof.
  intros s H. apply ascii_usv. apply Forall_forall. intros u Hu.
  rewrite forallb_forall in H. specialize (H u Hu). apply andb_true_iff in H as [H1 H2].
  apply Z.leb_le in H1. apply Z.ltb_lt in H2. lia.
Qed.

Lemma params_toString_injective_witness :
  [(lit "q", lit "Team Captain & Co=1")] = [(lit "q", lit "Team Captain & Co=1")].
Proof.
  apply params_toString_injective.
  - constructor; [split; apply ascii_usv_check; reflexivity | constructor].
  - constructor; [split; apply ascii_usv_check; reflexivity | constructor].
  - reflexivity.
Defined.





























Lemma query_values_cannot_add_parameters_witness :
  Forall (fun u => u <> 38 /\ u <> 61 /\ u <> 35 /\ u <> 47 /\ u <> 63)
    (form_urlencode (lit "Kills & Assists=2?#/")).
Proof.
  destruct query_values_cannot_add_parameters as (_ & _ & _ & _ & _ & H).
  apply H. apply valid_jstrb_ok. reflexivity.
Defined.

Lemma numbers_in_urls_read_back_witness : Num 1700000000 = Num 1700000000.
Proof.
  destruct numbers_in_urls_read_back as (_ & _ & H & _).
  apply H.
  - unfold safe_number, safe_integer. lia.
  - unfold safe_number, safe_integer. lia.
  - reflexivity.
Defined.
